(** * Relationship records of the town simulation (companionship.py)

    A shallow embedding of the four relationship classes [Kinship],
    [Acquaintance], [Friendship] and [Enmity] of [companionship.py], of their
    constructors and of [progress_relationship], together with the
    properties of the relationship engine that are stated about them.

    Modelling conventions.
    - Python objects live in a heap: a record object is a heap address
      ([rid], the index into [heap]); a person is identified by a [pid].
      [is] on records is equality of addresses.
    - Python [float] arithmetic is idealised as exact rational arithmetic
      on [Q]; equality of numbers is [==] ([Qeq]).
    - An attribute that a class never assigns is [None] in the record; reading
      such an attribute raises ([AttributeError] in the source).
    - A raised exception keeps the mutations made before it, as in Python:
      [Raised w] carries the world at the point of the raise. *)

From Stdlib Require Import QArith Qabs Lqa Lia String Ascii.

From stdpp Require Import base option list gmap strings pretty.

Local Open Scope Q_scope.

(** ** The collaborators the engine reads: personality, person, config *)

(** The five traits of [person.personality]; each is a float in [-1, 1].
    The person, personality and config classes are not part of the sources:
    the three records below list the attributes that [companionship.py]
    reads from them. *)
Record Personality := {
  openness_to_experience : Q;
  conscientiousness : Q;
  extroversion : Q;
  agreeableness : Q;
  neuroticism : Q
}.

(** Identities of persons ([pid]), heap addresses of relationship objects
    ([rid]), and the opaque values of [person.location] and [game.date]. *)
Abbreviation pid := nat (only parsing).

Abbreviation rid := nat (only parsing).

Abbreviation Location := nat (only parsing).

Abbreviation Date := nat (only parsing).

(** The attributes of a person that [companionship.py] reads.  The ledger
    [person.relationships] and [person.mind.mental_models] are mutable and
    live in the [World] below. *)
Record Person := {
  personality : Personality;
  male : bool;
  female : bool;
  attracted_to_men : bool;
  attracted_to_women : bool;
  age : Q;
  extended_family : list pid;
  location : Location
}.

(** The key ['m'] or ['f'] of the per-sex multiplier tables. *)
Inductive sex_key := key_m | key_f.

Record Config := {
  owner_extroversion_boost_to_charge_multiplier : Q;
  subject_agreeableness_boost_to_charge_multiplier : Q;
  charge_intensity_reduction_due_to_sex_difference : Q;
  openness_boost_to_spark_multiplier : sex_key -> Q;
  conscientiousness_boost_to_spark_multiplier : sex_key -> Q;
  extroversion_boost_to_spark_multiplier : sex_key -> Q;
  agreeableness_boost_to_spark_multiplier : sex_key -> Q;
  neuroticism_boost_to_spark_multiplier : sex_key -> Q;
  spark_decay_rate : Q;
  charge_threshold_friendship : Q;
  charge_threshold_enmity : Q;
  function_to_determine_how_age_difference_reduces_charge_intensity : Q -> Q -> Q
}.

(** ** The formulas of [Acquaintance.__init__] *)

Section Formulas.

Variable config : Config.

Variables owner subject : Person.

(** [Acquaintance._init_get_compatibility] *)
Definition _init_get_compatibility : Q :=
  let diff :=
    Qabs (openness_to_experience (personality owner)
          - openness_to_experience (personality subject)) +
    Qabs (extroversion (personality owner) - extroversion (personality subject)) +
    Qabs (agreeableness (personality owner) - agreeableness (personality subject)) in
  let normalized_diff := (3 - diff) / 3 in
  normalized_diff.

(** [Acquaintance._init_determine_charge_increment]; [compatibility] is
    [self.compatibility], assigned just before the call. *)
Definition _init_determine_charge_increment (compatibility : Q) : Q :=
  let charge_increment :=
    compatibility +
    extroversion (personality owner)
      * owner_extroversion_boost_to_charge_multiplier config +
    agreeableness (personality subject)
      * subject_agreeableness_boost_to_charge_multiplier config in
  if negb (Bool.eqb (male owner) (male subject))
  then charge_increment * charge_intensity_reduction_due_to_sex_difference config
  else charge_increment.

Definition owner_sex_key : sex_key := if male owner then key_m else key_f.

(** [Acquaintance._affect_initial_spark_increment_by_own_personality] *)
Definition _affect_initial_spark_increment_by_own_personality : Q :=
  let sex_key := owner_sex_key in
  let effect_from_own_personality := 0 in
  let effect_from_own_personality := effect_from_own_personality +
    openness_to_experience (personality subject)
      * openness_boost_to_spark_multiplier config sex_key in
  let effect_from_own_personality := effect_from_own_personality +
    conscientiousness (personality subject)
      * conscientiousness_boost_to_spark_multiplier config sex_key in
  let effect_from_own_personality := effect_from_own_personality +
    extroversion (personality subject)
      * extroversion_boost_to_spark_multiplier config sex_key in
  let effect_from_own_personality := effect_from_own_personality +
    agreeableness (personality subject)
      * agreeableness_boost_to_spark_multiplier config sex_key in
  let effect_from_own_personality := effect_from_own_personality +
    neuroticism (personality subject)
      * neuroticism_boost_to_spark_multiplier config sex_key in
  effect_from_own_personality.

(** [Acquaintance._affect_initial_spark_increment_by_acquaintance_personality] *)
Definition _affect_initial_spark_increment_by_acquaintance_personality : Q :=
  let sex_key := owner_sex_key in
  let effect_from_acquaintance_personality := 0 in
  let effect_from_acquaintance_personality := effect_from_acquaintance_personality +
    openness_to_experience (personality subject)
      * openness_boost_to_spark_multiplier config sex_key in
  let effect_from_acquaintance_personality := effect_from_acquaintance_personality +
    conscientiousness (personality subject)
      * conscientiousness_boost_to_spark_multiplier config sex_key in
  let effect_from_acquaintance_personality := effect_from_acquaintance_personality +
    extroversion (personality subject)
      * extroversion_boost_to_spark_multiplier config sex_key in
  let effect_from_acquaintance_personality := effect_from_acquaintance_personality +
    agreeableness (personality subject)
      * agreeableness_boost_to_spark_multiplier config sex_key in
  let effect_from_acquaintance_personality := effect_from_acquaintance_personality +
    neuroticism (personality subject)
      * neuroticism_boost_to_spark_multiplier config sex_key in
  effect_from_acquaintance_personality.

(** [self.subject in self.owner.extended_family]; [subject_id] is the
    identity of [subject]. *)
Definition in_extended_family (subject_id : pid) : bool :=
  bool_decide (subject_id ∈ extended_family owner).

(** [Acquaintance._init_determine_initial_spark_increment] *)
Definition _init_determine_initial_spark_increment (subject_id : pid) : Q :=
  if in_extended_family subject_id then 0
  else if male subject && negb (attracted_to_men owner) then 0
  else if female subject && negb (attracted_to_women owner) then 0
  else
    let initial_spark_increment := 0 in
    let initial_spark_increment :=
      initial_spark_increment + _affect_initial_spark_increment_by_own_personality in
    let initial_spark_increment :=
      initial_spark_increment + _affect_initial_spark_increment_by_acquaintance_personality in
    initial_spark_increment.

End Formulas.

(** ** Relationship records and the world they live in *)

(** [self.type]: the tag each constructor writes first. *)
Inductive RelType := kinship | acquaintance | friendship | enmity.

Global Instance RelType_eq_dec : EqDecision RelType.
Proof. solve_decision. Defined.

(** One heap object of any of the four classes.  [None] in [relationship],
    [compatibility], [charge_increment], [charge], [spark_increment] or
    [spark] means that the object has no such attribute; in the other
    optional fields it is Python's [None] ([Kinship] assigns no
    [preceded_by], and no code reads it from another object). *)
Record Relationship := {
  type : RelType;
  owner : pid;
  subject : pid;
  relationship : option string;
  preceded_by : option rid;
  succeeded_by : option rid;
  where_they_met : option Location;
  when_they_met : option Date;
  compatibility : option Q;
  charge_increment : option Q;
  charge : option Q;
  spark_increment : option Q;
  spark : option Q
}.

(** The object right after the first assignments of an [__init__]:
    [type], [owner], [subject] (and [preceded_by]) are set, nothing else. *)
Definition new_record (t : RelType) (o s : pid) (p : option rid) : Relationship :=
  {| type := t; owner := o; subject := s; relationship := None;
     preceded_by := p; succeeded_by := None;
     where_they_met := None; when_they_met := None;
     compatibility := None; charge_increment := None; charge := None;
     spark_increment := None; spark := None |}.

(** Attribute assignments [obj.attr = v]. *)
Definition set_relationship (v : option string) (r : Relationship) : Relationship :=
  {| type := type r; owner := owner r; subject := subject r; relationship := v;
     preceded_by := preceded_by r; succeeded_by := succeeded_by r;
     where_they_met := where_they_met r; when_they_met := when_they_met r;
     compatibility := compatibility r; charge_increment := charge_increment r;
     charge := charge r; spark_increment := spark_increment r; spark := spark r |}.

Definition set_succeeded_by (v : option rid) (r : Relationship) : Relationship :=
  {| type := type r; owner := owner r; subject := subject r;
     relationship := relationship r;
     preceded_by := preceded_by r; succeeded_by := v;
     where_they_met := where_they_met r; when_they_met := when_they_met r;
     compatibility := compatibility r; charge_increment := charge_increment r;
     charge := charge r; spark_increment := spark_increment r; spark := spark r |}.

Definition set_where_they_met (v : option Location) (r : Relationship) : Relationship :=
  {| type := type r; owner := owner r; subject := subject r;
     relationship := relationship r;
     preceded_by := preceded_by r; succeeded_by := succeeded_by r;
     where_they_met := v; when_they_met := when_they_met r;
     compatibility := compatibility r; charge_increment := charge_increment r;
     charge := charge r; spark_increment := spark_increment r; spark := spark r |}.

Definition set_when_they_met (v : option Date) (r : Relationship) : Relationship :=
  {| type := type r; owner := owner r; subject := subject r;
     relationship := relationship r;
     preceded_by := preceded_by r; succeeded_by := succeeded_by r;
     where_they_met := where_they_met r; when_they_met := v;
     compatibility := compatibility r; charge_increment := charge_increment r;
     charge := charge r; spark_increment := spark_increment r; spark := spark r |}.

Definition set_compatibility (v : Q) (r : Relationship) : Relationship :=
  {| type := type r; owner := owner r; subject := subject r;
     relationship := relationship r;
     preceded_by := preceded_by r; succeeded_by := succeeded_by r;
     where_they_met := where_they_met r; when_they_met := when_they_met r;
     compatibility := Some v; charge_increment := charge_increment r;
     charge := charge r; spark_increment := spark_increment r; spark := spark r |}.

Definition set_charge_increment (v : Q) (r : Relationship) : Relationship :=
  {| type := type r; owner := owner r; subject := subject r;
     relationship := relationship r;
     preceded_by := preceded_by r; succeeded_by := succeeded_by r;
     where_they_met := where_they_met r; when_they_met := when_they_met r;
     compatibility := compatibility r; charge_increment := Some v;
     charge := charge r; spark_increment := spark_increment r; spark := spark r |}.

Definition set_charge (v : Q) (r : Relationship) : Relationship :=
  {| type := type r; owner := owner r; subject := subject r;
     relationship := relationship r;
     preceded_by := preceded_by r; succeeded_by := succeeded_by r;
     where_they_met := where_they_met r; when_they_met := when_they_met r;
     compatibility := compatibility r; charge_increment := charge_increment r;
     charge := Some v; spark_increment := spark_increment r; spark := spark r |}.

Definition set_spark_increment (v : Q) (r : Relationship) : Relationship :=
  {| type := type r; owner := owner r; subject := subject r;
     relationship := relationship r;
     preceded_by := preceded_by r; succeeded_by := succeeded_by r;
     where_they_met := where_they_met r; when_they_met := when_they_met r;
     compatibility := compatibility r; charge_increment := charge_increment r;
     charge := charge r; spark_increment := Some v; spark := spark r |}.

Definition set_spark (v : Q) (r : Relationship) : Relationship :=
  {| type := type r; owner := owner r; subject := subject r;
     relationship := relationship r;
     preceded_by := preceded_by r; succeeded_by := succeeded_by r;
     where_they_met := where_they_met r; when_they_met := when_they_met r;
     compatibility := compatibility r; charge_increment := charge_increment r;
     charge := charge r; spark_increment := spark_increment r; spark := Some v |}.

(** [Observation(subject=..., source=...)] of the belief module. *)
Record Observation := { obs_subject : pid; obs_source : pid }.

(** The state the engine runs in.  [config] and [date] are
    [owner.game.config] and [owner.game.date] (one game for all persons);
    [people] gives the current attributes of each person; [relationships]
    is the ledger: [relationships !! (o, s)] is [o.relationships[s]];
    [mental_models !! (o, s)] is [o.mind.mental_models[s]]. *)
Record World := {
  config : Config;
  date : Date;
  people : pid -> Person;
  heap : list Relationship;
  relationships : gmap (pid * pid) rid;
  mental_models : gmap (pid * pid) (list Observation)
}.

Definition with_heap (h : list Relationship) (w : World) : World :=
  {| config := config w; date := date w; people := people w; heap := h;
     relationships := relationships w; mental_models := mental_models w |}.

Definition with_relationships (l : gmap (pid * pid) rid) (w : World) : World :=
  {| config := config w; date := date w; people := people w; heap := heap w;
     relationships := l; mental_models := mental_models w |}.

Definition with_mental_models (m : gmap (pid * pid) (list Observation)) (w : World) : World :=
  {| config := config w; date := date w; people := people w; heap := heap w;
     relationships := relationships w; mental_models := m |}.

(** ** Statements with effects and exceptions *)

Inductive Outcome (A : Type) :=
| Returned (w : World) (a : A)
| Raised (w : World).

Arguments Returned {A} w a.

Arguments Raised {A} w.

Definition M (A : Type) : Type := World -> Outcome A.

Definition ret {A} (a : A) : M A := fun w => Returned w a.

Definition raise {A} : M A := fun w => Raised w.

Definition bind {A B} (c : M A) (k : A -> M B) : M B :=
  fun w => match c w with
           | Returned w' a => k a w'
           | Raised w' => Raised w'
           end.

Declare Scope py_scope.

Delimit Scope py_scope with py.

Notation "x <- c ;; k" := (bind c (fun x => k))
  (at level 100, c at next level, right associativity) : py_scope.

Notation "c ;; k" := (bind c (fun _ => k))
  (at level 100, right associativity) : py_scope.

Local Open Scope py_scope.

(** The world a statement leaves behind, whether it returned or raised. *)
Definition final_world {A} (o : Outcome A) : World :=
  match o with Returned w _ => w | Raised w => w end.

Definition returned {A} (o : Outcome A) : option A :=
  match o with Returned _ a => Some a | Raised _ => None end.

Definition get_world : M World := fun w => Returned w w.

Definition modify_world (f : World -> World) : M unit := fun w => Returned (f w) tt.

(** [object.__new__]: the fresh object gets the next heap address. *)
Definition new_object (r : Relationship) : M rid :=
  fun w => Returned (with_heap (heap w ++ [r]) w) (length (heap w)).

(** Following a reference; an address outside the heap denotes no object. *)
Definition deref (a : rid) : M Relationship :=
  fun w => match heap w !! a with
           | Some r => Returned w r
           | None => Raised w
           end.

(** [obj.attr] for an attribute the object may lack. *)
Definition getattr {A} (f : Relationship -> option A) (a : rid) : M A :=
  r <- deref a ;;
  match f r with Some v => ret v | None => raise end.

(** [obj.attr = v] *)
Definition setattr (f : Relationship -> Relationship) (a : rid) : M unit :=
  _ <- deref a ;;
  modify_world (fun w => with_heap (alter f a (heap w)) w).

(** [x.attr] where [x] may be [None]: [None] has no attributes. *)
Definition not_none {A} (x : option A) : M A :=
  match x with Some a => ret a | None => raise end.

(** Strict comparison of floats, [x < y]. *)
Definition Qltb (x y : Q) : bool := negb (Qle_bool y x).

(** ** The classes of companionship.py *)

(** [self.owner.relationships[self.subject] = self] *)
Definition set_ledger (o s : pid) (self : rid) : M unit :=
  modify_world (fun w => with_relationships (<[(o, s) := self]> (relationships w)) w).

(** Modelled from the spec: the belief module ([Observation],
    [PersonMentalModel], [build_up]) is not part of the sources.  The bridge
    "creates a model of subject if owner has none, else folds in a new
    observation"; a model is kept as the list of observations folded into
    it, oldest first, and a new model registers itself with its owner. *)
Definition PersonMentalModel (o s : pid) (observation : Observation) : M unit :=
  modify_world (fun w => with_mental_models (<[(o, s) := [observation]]> (mental_models w)) w).

(** Modelled from the spec: [PersonMentalModel.build_up], which "folds in a
    new observation". *)
Definition build_up (o s : pid) (model : list Observation)
    (new_observation_or_reflection : Observation) : M unit :=
  modify_world (fun w =>
    with_mental_models
      (<[(o, s) := model ++ [new_observation_or_reflection]]> (mental_models w)) w).

(** [Acquaintance.form_or_build_up_mental_model] *)
Definition form_or_build_up_mental_model (self : rid) : M unit :=
  r <- deref self ;;
  let observation := {| obs_subject := subject r; obs_source := owner r |} in
  w <- get_world ;;
  match mental_models w !! (owner r, subject r) with
  | None => PersonMentalModel (owner r) (subject r) observation
  | Some model => build_up (owner r) (subject r) model observation
  end.

(** [Kinship.__init__] *)
Definition Kinship (o s : pid) (rel : string) : M rid :=
  self <- new_object (new_record kinship o s None) ;;
  setattr (set_relationship (Some rel)) self ;;
  setattr (set_succeeded_by None) self ;;
  setattr (set_where_they_met None) self ;;
  setattr (set_when_they_met None) self ;;
  set_ledger o s self ;;
  ret self.

(** [Acquaintance.__init__] *)
Definition Acquaintance (o s : pid) (p : option rid) : M rid :=
  self <- new_object (new_record acquaintance o s p) ;;
  match p with
  | Some pred => setattr (set_succeeded_by (Some self)) pred
  | None => ret tt
  end ;;
  setattr (set_succeeded_by None) self ;;
  w <- get_world ;;
  setattr (set_where_they_met (Some (location (people w o)))) self ;;
  setattr (set_when_they_met (Some (date w))) self ;;
  set_ledger o s self ;;
  setattr (set_compatibility (_init_get_compatibility (people w o) (people w s))) self ;;
  compat <- getattr compatibility self ;;
  setattr (set_charge_increment
             (_init_determine_charge_increment (config w) (people w o) (people w s) compat))
          self ;;
  ci <- getattr charge_increment self ;;
  setattr (set_charge ci) self ;;
  setattr (set_spark_increment
             (_init_determine_initial_spark_increment (config w) (people w o) (people w s) s))
          self ;;
  si <- getattr spark_increment self ;;
  setattr (set_spark si) self ;;
  form_or_build_up_mental_model self ;;
  ret self.

(** [Enmity.__init__] and [Friendship.__init__]: the two bodies differ in
    the tag [t] only. *)
Definition successor_init (t : RelType) (o s : pid) (p : option rid) : M rid :=
  self <- new_object (new_record t o s p) ;;
  pred <- not_none p ;;
  setattr (set_succeeded_by (Some self)) pred ;;
  setattr (set_succeeded_by None) self ;;
  pr <- deref pred ;;
  setattr (set_where_they_met (where_they_met pr)) self ;;
  pr <- deref pred ;;
  setattr (set_when_they_met (when_they_met pr)) self ;;
  set_ledger o s self ;;
  ci <- getattr charge_increment pred ;;
  setattr (set_charge_increment ci) self ;;
  c <- getattr charge pred ;;
  setattr (set_charge c) self ;;
  ret self.

Definition Enmity : pid -> pid -> option rid -> M rid := successor_init enmity.

Definition Friendship : pid -> pid -> option rid -> M rid := successor_init friendship.

(** The property [Acquaintance.age_difference_effect_on_charge_increment] *)
Definition age_difference_effect_on_charge_increment (self : rid) : M Q :=
  r <- deref self ;;
  w <- get_world ;;
  ret (function_to_determine_how_age_difference_reduces_charge_intensity (config w)
         (age (people w (owner r))) (age (people w (subject r)))).

(** The property [Acquaintance.age_difference_effect_on_spark_increment] *)
Definition age_difference_effect_on_spark_increment (self : rid) : M Q :=
  r <- deref self ;;
  w <- get_world ;;
  ret (function_to_determine_how_age_difference_reduces_charge_intensity (config w)
         (age (people w (owner r))) (age (people w (subject r)))).

(** The threshold test shared, word for word, by the three
    [progress_relationship] methods. *)
Definition start_friendship_or_enmity (self : rid) : M unit :=
  r <- deref self ;;
  w <- get_world ;;
  c <- getattr charge self ;;
  if Qltb (charge_threshold_friendship (config w)) c then
    _ <- Friendship (owner r) (subject r) (Some self) ;; ret tt
  else if Qltb c (charge_threshold_enmity (config w)) then
    _ <- Enmity (owner r) (subject r) (Some self) ;; ret tt
  else ret tt.

(** A method body runs its statements in order; the first one that raises
    ends it. *)
Fixpoint sequence (body : list (M unit)) : M unit :=
  match body with
  | [] => ret tt
  | statement :: rest => statement ;; sequence rest
  end.


(** The body of [Acquaintance.progress_relationship], statement by statement
    in the order of the source:
    - [self.charge += self.charge_increment * self.age_difference_effect_on_charge_increment]
    - the threshold test [if self.charge > ...: Friendship(...) elif ...: Enmity(...)]
    - [self.spark_increment *= config.spark_decay_rate]
    - [self.spark += self.spark_increment * self.age_difference_effect_on_spark_increment]
    - [self.form_or_build_up_mental_model()]

    [config] is [self.owner.game.config], which no statement assigns. *)
Definition Acquaintance_progress_statements (self : rid) : list (M unit) :=
  [ (c <- getattr charge self ;;
     ci <- getattr charge_increment self ;;
     e <- age_difference_effect_on_charge_increment self ;;
     setattr (set_charge (c + ci * e)) self);
    start_friendship_or_enmity self;
    (w <- get_world ;;
     si <- getattr spark_increment self ;;
     setattr (set_spark_increment (si * spark_decay_rate (config w))) self);
    (sp <- getattr spark self ;;
     si' <- getattr spark_increment self ;;
     e' <- age_difference_effect_on_spark_increment self ;;
     setattr (set_spark (sp + si' * e')) self);
    form_or_build_up_mental_model self ].

(** [Acquaintance.progress_relationship] *)
Definition Acquaintance_progress_relationship (self : rid) : M unit :=
  sequence (Acquaintance_progress_statements self).

(** [Enmity.progress_relationship] *)
Definition Enmity_progress_relationship (self : rid) : M unit :=
  c <- getattr charge self ;;
  ci <- getattr charge_increment self ;;
  setattr (set_charge (c + ci)) self ;;
  start_friendship_or_enmity self.

(** [Friendship.progress_relationship] *)
Definition Friendship_progress_relationship (self : rid) : M unit :=
  c <- getattr charge self ;;
  ci <- getattr charge_increment self ;;
  setattr (set_charge (c + ci)) self ;;
  start_friendship_or_enmity self.

(** [record.progress_relationship()]: the method of the object's class;
    [Kinship] has none. *)
Definition progress_relationship (self : rid) : M unit :=
  r <- deref self ;;
  match type r with
  | acquaintance => Acquaintance_progress_relationship self
  | enmity => Enmity_progress_relationship self
  | friendship => Friendship_progress_relationship self
  | kinship => raise
  end.

(** ** What one constructor call leaves behind *)

(** [preceded_by.succeeded_by = self], when there is a predecessor. *)
Definition link (p : option rid) (self : rid) (h : list Relationship) : list Relationship :=
  match p with
  | Some pred => alter (set_succeeded_by (Some self)) pred h
  | None => h
  end.

(** The mental models after [o] has observed [s] once more. *)
Definition observed (o s : pid) (m : gmap (pid * pid) (list Observation))
    : gmap (pid * pid) (list Observation) :=
  let observation := {| obs_subject := s; obs_source := o |} in
  match m !! (o, s) with
  | None => <[(o, s) := [observation]]> m
  | Some model => <[(o, s) := model ++ [observation]]> m
  end.

(** The finished [Acquaintance] object. *)
Definition Acquaintance_record (w : World) (o s : pid) (p : option rid) : Relationship :=
  let compat := _init_get_compatibility (people w o) (people w s) in
  let ci := _init_determine_charge_increment (config w) (people w o) (people w s) compat in
  let si := _init_determine_initial_spark_increment (config w) (people w o) (people w s) s in
  {| type := acquaintance; owner := o; subject := s; relationship := None;
     preceded_by := p; succeeded_by := None;
     where_they_met := Some (location (people w o)); when_they_met := Some (date w);
     compatibility := Some compat; charge_increment := Some ci; charge := Some ci;
     spark_increment := Some si; spark := Some si |}.

(** The finished [Kinship] object. *)
Definition Kinship_record (o s : pid) (rel : string) : Relationship :=
  {| type := kinship; owner := o; subject := s; relationship := Some rel;
     preceded_by := None; succeeded_by := None;
     where_they_met := None; when_they_met := None;
     compatibility := None; charge_increment := None; charge := None;
     spark_increment := None; spark := None |}.

(** A [Friendship] or [Enmity] object once [where_they_met] and
    [when_they_met] are inherited; [ci] and [c] are the charge attributes
    copied so far. *)
Definition successor_record (t : RelType) (o s pred : pid) (pr : Relationship)
    (ci c : option Q) : Relationship :=
  {| type := t; owner := o; subject := s; relationship := None;
     preceded_by := Some pred; succeeded_by := None;
     where_they_met := where_they_met pr; when_they_met := when_they_met pr;
     compatibility := None; charge_increment := ci; charge := c;
     spark_increment := None; spark := None |}.

(** The world after [Friendship(o, s, pred)] / [Enmity(o, s, pred)] has linked
    the predecessor [pr], inherited the meeting and written the ledger;
    [ci] and [c] are the charge attributes copied so far. *)
Definition successor_built (t : RelType) (o s : pid) (pred : rid) (pr : Relationship)
    (ci c : option Q) (w : World) : World :=
  let self := length (heap w) in
  {| config := config w; date := date w; people := people w;
     heap := alter (set_succeeded_by (Some self)) pred (heap w)
             ++ [successor_record t o s pred pr ci c];
     relationships := <[(o, s) := self]> (relationships w);
     mental_models := mental_models w |}.

(** ** What one call of [progress_relationship] leaves behind *)

(** The class of the record that the threshold test constructs for the
    charge [c], if any. *)
Definition crossing (cfg : Config) (c : Q) : option RelType :=
  if Qltb (charge_threshold_friendship cfg) c then Some friendship
  else if Qltb c (charge_threshold_enmity cfg) then Some enmity
  else None.

(** The world after the threshold test on the record [r] at [self]. *)
Definition transitioned (self : rid) (r : Relationship) (ci c : Q) (w : World) : World :=
  match crossing (config w) c with
  | Some t => successor_built t (owner r) (subject r) self r (Some ci) (Some c) w
  | None => w
  end.

(** The world after [self.charge = v]. *)
Definition charged (self : rid) (v : Q) (w : World) : World :=
  with_heap (alter (set_charge v) self (heap w)) w.

(** The value of the two age-difference properties for the record [r]. *)
Definition age_effect (w : World) (r : Relationship) : Q :=
  function_to_determine_how_age_difference_reduces_charge_intensity (config w)
    (age (people w (owner r))) (age (people w (subject r))).

(** The world after the spark statements and the mental-model update that
    end [Acquaintance.progress_relationship]. *)
Definition spark_progressed (self : rid) (o s : pid) (si sp : Q) (w : World) : World :=
  {| config := config w; date := date w; people := people w;
     heap := alter (set_spark sp) self (alter (set_spark_increment si) self (heap w));
     relationships := relationships w;
     mental_models := observed o s (mental_models w) |}.

(** ** Spec-side vocabulary *)

(** A reference handed to a constructor denotes an existing object. *)
Definition valid_ref (w : World) (p : option rid) : Prop :=
  forall a, p = Some a -> (a < length (heap w))%nat.

(** A trait value on the scale -1 to 1. *)
Definition in_range (x : Q) : Prop := -1 <= x /\ x <= 1.

(** The traits that compatibility reads are on the scale. *)
Definition similarity_traits_in_range (p : Personality) : Prop :=
  in_range (openness_to_experience p) /\ in_range (extroversion p)
  /\ in_range (agreeableness p).

(** The spec's [d]: the sum of the absolute differences in openness,
    extroversion and agreeableness. *)
Definition trait_distance (a b : Personality) : Q :=
  Qabs (openness_to_experience a - openness_to_experience b)
  + Qabs (extroversion a - extroversion b)
  + Qabs (agreeableness a - agreeableness b).

(** Identical trait triples. *)
Definition same_similarity_traits (a b : Personality) : Prop :=
  openness_to_experience a == openness_to_experience b
  /\ extroversion a == extroversion b
  /\ agreeableness a == agreeableness b.

(** The spec's charge increment: compatibility plus the two boosts, dampened
    when owner and subject differ in sex. *)
Definition spec_charge_increment (cfg : Config) (a b : Person) (compat : Q) : Q :=
  let base :=
    compat
    + extroversion (personality a) * owner_extroversion_boost_to_charge_multiplier cfg
    + agreeableness (personality b) * subject_agreeableness_boost_to_charge_multiplier cfg in
  if bool_decide (male a = male b) then base
  else base * charge_intensity_reduction_due_to_sex_difference cfg.

(** The gating condition of the spark increment: [subject] is family, or
    of a sex [owner] is not attracted to. *)
Definition spark_gated (a b : Person) (b_id : pid) : Prop :=
  b_id ∈ extended_family a
  \/ (male b = true /\ attracted_to_men a = false)
  \/ (female b = true /\ attracted_to_women a = false).

(** The spec's subject-personality sum: the five traits of one personality,
    each weighted by the multiplier stored under one sex key. *)
Definition spec_personality_sum (cfg : Config) (k : sex_key) (t : Personality) : Q :=
  openness_to_experience t * openness_boost_to_spark_multiplier cfg k
  + conscientiousness t * conscientiousness_boost_to_spark_multiplier cfg k
  + extroversion t * extroversion_boost_to_spark_multiplier cfg k
  + agreeableness t * agreeableness_boost_to_spark_multiplier cfg k
  + neuroticism t * neuroticism_boost_to_spark_multiplier cfg k.

(** ** A small town to run the engine on *)

Definition all_traits (x : Q) : Personality :=
  {| openness_to_experience := x; conscientiousness := x; extroversion := x;
     agreeableness := x; neuroticism := x |}.

(** An age-difference function of the expected kind: 1 for equal ages,
    decreasing in the distance of the ages. *)
Definition example_age_function (age1 age2 : Q) : Q := 1 / (1 + Qabs (age1 - age2)).

(** A multiplier table [{'m': m, 'f': f}]. *)
Definition per_sex (m f : Q) (k : sex_key) : Q :=
  match k with key_m => m | key_f => f end.

Definition example_config : Config :=
  {| owner_extroversion_boost_to_charge_multiplier := 1 # 2;
     subject_agreeableness_boost_to_charge_multiplier := 1 # 2;
     charge_intensity_reduction_due_to_sex_difference := 1 # 2;
     openness_boost_to_spark_multiplier := per_sex 1 (1 # 2);
     conscientiousness_boost_to_spark_multiplier := per_sex (1 # 4) 1;
     extroversion_boost_to_spark_multiplier := per_sex (1 # 2) (1 # 2);
     agreeableness_boost_to_spark_multiplier := per_sex 1 1;
     neuroticism_boost_to_spark_multiplier := per_sex (- (1 # 2)) (- (1 # 4));
     spark_decay_rate := 9 # 10;
     charge_threshold_friendship := 5;
     charge_threshold_enmity := -5;
     function_to_determine_how_age_difference_reduces_charge_intensity :=
       example_age_function |}.

(** Person 0: a woman of 30, attracted to men, whose family is person 3.
    Person 1: a man of 30.  Person 2: a man of 31 with opposite traits.
    Person 3 (and everyone else): a woman of 32, sister of person 0. *)
Definition example_people (i : pid) : Person :=
  match i with
  | 0%nat => {| personality := all_traits (1 # 2); male := false; female := true;
                attracted_to_men := true; attracted_to_women := false;
                age := 30; extended_family := [3%nat]; location := 7%nat |}
  | 1%nat => {| personality := all_traits (1 # 2); male := true; female := false;
                attracted_to_men := false; attracted_to_women := true;
                age := 30; extended_family := []; location := 8%nat |}
  | 2%nat => {| personality := all_traits (- (1 # 2)); male := true; female := false;
                attracted_to_men := false; attracted_to_women := true;
                age := 31; extended_family := []; location := 8%nat |}
  | _ => {| personality := all_traits (1 # 2); male := false; female := true;
            attracted_to_men := true; attracted_to_women := false;
            age := 32; extended_family := [0%nat]; location := 9%nat |}
  end.

(** The town before anybody has met. *)
Definition empty_town : World :=
  {| config := example_config; date := 3%nat; people := example_people;
     heap := []; relationships := ∅; mental_models := ∅ |}.

(** Person 3 and person 0 are registered as sisters. *)
Definition town_of_sisters : World :=
  final_world (Kinship 3%nat 0%nat "sister" empty_town).

(** The record at [self] after the threshold test: linked to the successor
    when one was constructed, untouched otherwise. *)
Definition superseded (self_successor : rid) (t : option RelType) (r : Relationship)
    : Relationship :=
  match t with
  | Some _ => set_succeeded_by (Some self_successor) r
  | None => r
  end.

(** ** The town, some calls later *)

(** The world after one call [record.progress_relationship()]. *)
Definition progress (self : rid) (w : World) : World :=
  final_world (progress_relationship self w).

(** Persons 0 and 3 meet; person 0's acquaintance with person 3 is record 0.
    Their traits are identical and both are women, so compatibility is 1 and
    the charge increment is 1 + 1/2 * 1/2 + 1/2 * 1/2 = 3/2, which is also
    the initial charge; person 3 is family, so the spark increment is 0. *)
Definition town_of_acquaintances : World :=
  final_world (Acquaintance 0%nat 3%nat None empty_town).

(** ... and person 0 has progressed record 0 [n] times.  The ages are 30 and
    32, the age-difference effect is 1/3, and each call adds 3/2 * 1/3 = 1/2
    to the charge: 2, 5/2, 3, 7/2, 4, 9/2, 5, 11/2. *)
Definition town_after (n : nat) : World :=
  Nat.iter n (progress 0%nat) town_of_acquaintances.

(** After eight calls the charge has passed the friendship threshold:
    record 1 is the Friendship that succeeded record 0. *)
Definition town_of_friends : World := town_after 8.


(** ** Vocabulary for one call of [progress_relationship] *)

(** The objects of the heap of [w'] that did not exist in [w]: the records
    constructed in between. *)
Definition constructed (w w' : World) : list Relationship :=
  drop (length (heap w)) (heap w').

(** The charge that one call leaves on the record [r]. *)
Definition progressed_charge (w : World) (r : Relationship) (c ci : Q) : Q :=
  match type r with
  | acquaintance => c + ci * age_effect w r
  | _ => c + ci
  end.

(** A record that carries the attributes its class's [progress_relationship]
    reads. *)
Definition progressable (r : Relationship) (c ci : Q) : Prop :=
  charge r = Some c /\ charge_increment r = Some ci /\ type r <> kinship
  /\ (type r = acquaintance -> is_Some (spark_increment r) /\ is_Some (spark r)).

(** The records constructed by the threshold test. *)
Definition successors (self : rid) (r : Relationship) (ci c : Q) (t : option RelType)
    : list Relationship :=
  match t with
  | Some t => [successor_record t (owner r) (subject r) self r (Some ci) (Some c)]
  | None => []
  end.

(** The call that took [w] to [w'] constructed exactly one record, of class
    [t], for the pair of [r] and with predecessor [self]. *)
Definition constructs (w w' : World) (t : RelType) (self : rid) (r : Relationship) : Prop :=
  exists f,
    constructed w w' = [f]
    /\ type f = t /\ owner f = owner r /\ subject f = subject r
    /\ preceded_by f = Some self.

(** After five calls record 0, still an Acquaintance, has charge 4 and
    increment 3/2; here person 0 is told to count person 3 a friend at once:
    record 1 is a Friendship with charge 4 and increment 3/2. *)
Definition town_of_early_friends : World :=
  final_world (Friendship 0%nat 3%nat (Some 0%nat) (town_after 5)).

(** ** Constructor calls, by class *)

(** A constructor call, by class. *)
Inductive Construction :=
| NewKinship (rel : string)
| NewAcquaintance (p : option rid)
| NewFriendship (p : option rid)
| NewEnmity (p : option rid).

Definition construct (k : Construction) (o s : pid) : M rid :=
  match k with
  | NewKinship rel => Kinship o s rel
  | NewAcquaintance p => Acquaintance o s p
  | NewFriendship p => Friendship o s p
  | NewEnmity p => Enmity o s p
  end.

Definition class_of (k : Construction) : RelType :=
  match k with
  | NewKinship _ => kinship
  | NewAcquaintance _ => acquaintance
  | NewFriendship _ => friendship
  | NewEnmity _ => enmity
  end.

Definition predecessor_of (k : Construction) : option rid :=
  match k with
  | NewKinship _ => None
  | NewAcquaintance p | NewFriendship p | NewEnmity p => p
  end.

(** The inputs on which the constructor completes: any for [Kinship] and
    [Acquaintance]; a predecessor with the charge attributes for
    [Friendship] and [Enmity]. *)
Definition constructible (w : World) (k : Construction) : Prop :=
  match k with
  | NewKinship _ | NewAcquaintance _ => True
  | NewFriendship p | NewEnmity p =>
      exists a pr, p = Some a /\ heap w !! a = Some pr
                   /\ is_Some (charge_increment pr) /\ is_Some (charge pr)
  end.

(** ** Runs of the engine *)

(** What a caller can do: construct a record, progress one, or let the
    simulation move on (date, ages and locations change outside this
    module). *)
Inductive Call :=
| CallConstruct (k : Construction) (o s : pid)
| CallProgress (self : rid)
| CallElapse (d : Date) (ppl : pid -> Person).

Definition elapse (d : Date) (ppl : pid -> Person) (w : World) : World :=
  {| config := config w; date := d; people := ppl; heap := heap w;
     relationships := relationships w; mental_models := mental_models w |}.

(** The world a call leaves behind, whether it returned or raised. *)
Definition run_call (c : Call) (w : World) : World :=
  match c with
  | CallConstruct k o s => final_world (construct k o s w)
  | CallProgress self => progress self w
  | CallElapse d ppl => elapse d ppl w
  end.

(** The references a call passes denote existing objects. *)
Definition refs_exist (w : World) (c : Call) : Prop :=
  match c with
  | CallConstruct k _ _ => valid_ref w (predecessor_of k)
  | CallProgress self => (self < length (heap w))%nat
  | CallElapse _ _ => True
  end.

(** The caller's contract: the record that is progressed, or handed over as
    predecessor, is the current ledger entry of its pair. *)
Definition targets_current (w : World) (c : Call) : Prop :=
  match c with
  | CallConstruct k o s =>
      forall a, predecessor_of k = Some a -> relationships w !! (o, s) = Some a
  | CallProgress self =>
      exists r, heap w !! self = Some r
                /\ relationships w !! (owner r, subject r) = Some self
  | CallElapse _ _ => True
  end.

Definition disciplined (w : World) (c : Call) : Prop :=
  refs_exist w c /\ targets_current w c.

(** The record a call acts on: the one it is made on, or the one it is
    handed as predecessor. *)
Definition target_of (c : Call) : option rid :=
  match c with
  | CallConstruct k _ _ => predecessor_of k
  | CallProgress self => Some self
  | CallElapse _ _ => None
  end.

(** The spec's proviso: a record that already has a successor is left
    alone -- it is neither progressed nor handed over as predecessor. *)
Definition spares_superseded (w : World) (c : Call) : Prop :=
  forall a r, target_of c = Some a -> heap w !! a = Some r -> succeeded_by r = None.

Definition careful (w : World) (c : Call) : Prop :=
  refs_exist w c /\ spares_superseded w c.

(** The worlds reached from [w0] by calls that satisfy [ok]. *)
Inductive reaches (ok : World -> Call -> Prop) (w0 : World) : World -> Prop :=
| reaches_start : reaches ok w0 w0
| reaches_step (w : World) (c : Call) :
    reaches ok w0 w -> ok w c -> reaches ok w0 (run_call c w).

(** A world in which nobody has any relationship yet. *)
Definition pristine (w : World) : Prop := heap w = [] /\ relationships w = ∅.

(** Chain integrity, first half: whoever is named as successor names the
    record as its predecessor. *)
Definition chain_linked (w : World) : Prop :=
  forall R S rec,
    heap w !! R = Some rec -> succeeded_by rec = Some S ->
    exists srec, heap w !! S = Some srec /\ preceded_by srec = Some R.

(** An Acquaintance object carries all its numeric attributes. *)
Definition complete (r : Relationship) : Prop :=
  is_Some (charge r) /\ is_Some (charge_increment r)
  /\ is_Some (spark_increment r) /\ is_Some (spark r).

Definition acquaintances_complete (w : World) : Prop :=
  forall a r, heap w !! a = Some r -> type r = acquaintance -> complete r.

(** Ledger entries denote records of their own pair ... *)
Definition ledger_sound (w : World) : Prop :=
  forall o s x, relationships w !! (o, s) = Some x ->
    exists r, heap w !! x = Some r /\ owner r = o /\ subject r = s.

(** ... and, when callers keep the contract, records without a successor. *)
Definition current_unsucceeded (w : World) : Prop :=
  forall o s x r, relationships w !! (o, s) = Some x -> heap w !! x = Some r ->
    succeeded_by r = None.

(** An attribute update that leaves the identity of a record alone. *)
Definition same_identity (r r' : Relationship) : Prop :=
  type r' = type r /\ owner r' = owner r /\ subject r' = subject r
  /\ preceded_by r' = preceded_by r /\ (complete r -> complete r').

(** The three shapes of what one call does to heap and ledger:
    it updates attributes other than [succeeded_by] of one record; *)
Definition touches (w w' : World) : Prop :=
  exists a g,
    heap w' = alter g a (heap w)
    /\ relationships w' = relationships w
    /\ forall r, same_identity r (g r) /\ succeeded_by (g r) = succeeded_by r.

(** ... or it adds one record that succeeds nothing; *)
Definition adds (w w' : World) : Prop :=
  exists f,
    heap w' = heap w ++ [f]
    /\ succeeded_by f = None
    /\ (type f = acquaintance -> complete f)
    /\ (relationships w' = relationships w
        \/ relationships w' = <[(owner f, subject f) := length (heap w)]> (relationships w)).

(** ... or it adds one record for the pair [(o, s)] that succeeds record [a]. *)
Definition succeeds (w w' : World) (a : rid) (o s : pid) : Prop :=
  exists g f,
    (a < length (heap w))%nat
    /\ heap w' = alter g a (heap w) ++ [f]
    /\ (forall r, same_identity r (g r) /\ succeeded_by (g r) = Some (length (heap w)))
    /\ owner f = o /\ subject f = s
    /\ preceded_by f = Some a
    /\ succeeded_by f = None
    /\ (type f = acquaintance -> complete f)
    /\ relationships w' = <[(o, s) := length (heap w)]> (relationships w).

(** What any of the three shapes means record by record; [linked] is the
    record that got a successor, if any. *)
Definition heap_step (w w' : World) (linked : option rid) : Prop :=
  (forall b r, heap w !! b = Some r ->
     exists r', heap w' !! b = Some r' /\ same_identity r r'
                /\ succeeded_by r'
                   = if decide (linked = Some b) then Some (length (heap w))
                     else succeeded_by r)
  /\ (forall b f, heap w !! b = None -> heap w' !! b = Some f ->
        b = length (heap w) /\ succeeded_by f = None
        /\ (type f = acquaintance -> complete f)
        /\ forall a, linked = Some a -> preceded_by f = Some a)
  /\ (forall a, linked = Some a ->
        (a < length (heap w))%nat /\ is_Some (heap w' !! length (heap w))).

(** The three shapes, with the caller's contract recorded where a
    successor is linked. *)
Definition shaped (contract : bool) (w w' : World) : Prop :=
  touches w w' \/ adds w w'
  \/ exists a o s, succeeds w w' a o s
                   /\ (contract = true -> relationships w !! (o, s) = Some a).

(** The invariants of every run ... *)
Definition engine_invariant (w : World) : Prop :=
  chain_linked w /\ acquaintances_complete w /\ ledger_sound w.

(** ... and of the runs in which callers keep the contract. *)
Definition contract_invariant (w : World) : Prop :=
  engine_invariant w /\ current_unsucceeded w.

(** ** Vocabulary for repeated calls *)

(** The world after [n] calls [record.progress_relationship()] on the same
    record, nothing else happening in between. *)
Definition progress_times (n : nat) (self : rid) (w : World) : World :=
  Nat.iter n (progress self) w.

(** An Acquaintance object at [self] with its numeric attributes. *)
Definition acquaintance_at (w : World) (self : rid) (r : Relationship)
    (c ci si sp : Q) : Prop :=
  heap w !! self = Some r /\ type r = acquaintance
  /\ charge r = Some c /\ charge_increment r = Some ci
  /\ spark_increment r = Some si /\ spark r = Some sp.

(** The caller's usual step, [owner.relationships[subject].progress_relationship()]:
    one call on the current ledger entry of the pair (nothing happens when the
    pair has no entry). *)
Definition progress_current (o s : pid) (w : World) : World :=
  match relationships w !! (o, s) with
  | Some x => progress x w
  | None => w
  end.

(** The pair's current record is a Friendship or an Enmity with charge [c]
    above the friendship threshold and increment [ci]. *)
Definition friend_above (w : World) (o s : pid) (x : rid) (c ci : Q) : Prop :=
  relationships w !! (o, s) = Some x
  /\ exists r, heap w !! x = Some r
     /\ (type r = friendship \/ type r = enmity)
     /\ owner r = o /\ subject r = s
     /\ charge r = Some c /\ charge_increment r = Some ci
     /\ charge_threshold_friendship (config w) < c.

(** ** Vocabulary for the history of a record *)

(** [r'] is [r] after some calls: what a record is fixed to at construction
    is the same, and no running attribute has been lost. *)
Definition kept (r r' : Relationship) : Prop :=
  type r' = type r /\ owner r' = owner r /\ subject r' = subject r
  /\ relationship r' = relationship r
  /\ preceded_by r' = preceded_by r
  /\ where_they_met r' = where_they_met r /\ when_they_met r' = when_they_met r
  /\ compatibility r' = compatibility r
  /\ charge_increment r' = charge_increment r
  /\ (is_Some (charge r) -> is_Some (charge r'))
  /\ (is_Some (spark_increment r) -> is_Some (spark_increment r'))
  /\ (is_Some (spark r) -> is_Some (spark r')).

(** Calls in which a Friendship or an Enmity is only ever constructed by
    [progress_relationship], as the engine itself does. *)
Definition engine_call (w : World) (c : Call) : Prop :=
  refs_exist w c
  /\ match c with
     | CallConstruct (NewFriendship _) _ _ | CallConstruct (NewEnmity _) _ _ => False
     | _ => True
     end.

(** Every record that is not a Kinship carries [charge] and
    [charge_increment]. *)
Definition all_charged (w : World) : Prop :=
  forall a r, heap w !! a = Some r -> type r <> kinship ->
    is_Some (charge r) /\ is_Some (charge_increment r).

(** The pair's current record is a Friendship or an Enmity with charge [c]
    below the enmity threshold (and not above the friendship threshold, which
    is tested first) and increment [ci]. *)
Definition enemy_below (w : World) (o s : pid) (x : rid) (c ci : Q) : Prop :=
  relationships w !! (o, s) = Some x
  /\ exists r, heap w !! x = Some r
     /\ (type r = friendship \/ type r = enmity)
     /\ owner r = o /\ subject r = s
     /\ charge r = Some c /\ charge_increment r = Some ci
     /\ c < charge_threshold_enmity (config w)
     /\ c <= charge_threshold_friendship (config w).

(** The link of a chain grown from the record [x] in a heap of [k] records:
    the record at [k + i] is of class [t] for the pair [(o, s)], carries the
    increment [ci] and is preceded by the link before it. *)
Definition chain_link (t : RelType) (o s : pid) (x : rid) (k : nat) (ci : Q)
    (w : World) (i : nat) : Prop :=
  exists f, heap w !! (k + i)%nat = Some f
            /\ type f = t /\ owner f = o /\ subject f = s
            /\ preceded_by f = Some (match i with O => x | S j => (k + j)%nat end)
            /\ charge_increment f = Some ci.

(** ** Two men who do not get along *)

(** Person 0 has every trait at -1, everyone else every trait at 1; all are
    men of 40.  Compatibility is -1 and person 0's charge increment towards
    person 1 is -1 - 1/2 + 1/2 = -1; the age-difference effect is 1. *)
Definition feuding_people (i : pid) : Person :=
  {| personality := all_traits (match i with 0%nat => -1 | _ => 1 end);
     male := true; female := false;
     attracted_to_men := false; attracted_to_women := true;
     age := 40; extended_family := []; location := 5%nat |}.

(** Persons 0 and 1 have met and person 0 has progressed the record five
    times: the charge went from -1 to -6, below the enmity threshold -5, and
    record 1 is the Enmity that succeeded record 0. *)
Definition town_of_enemies : World :=
  Nat.iter 5 (progress 0%nat)
    (final_world
       (Acquaintance 0%nat 1%nat None
          {| config := example_config; date := 3%nat; people := feuding_people;
             heap := []; relationships := ∅; mental_models := ∅ |})).

(** * The socket handlers of server.py

    The five handlers registered with [socketio.on] in the namespace
    ['/gameplay'].  Flask's per-client [session] is a dict with string keys;
    [emit] sends one message to the client.  What [startgame] provides is
    opaque here. *)

Module Server.

(** The attributes of [startgame] that the handlers send. *)
Inductive Startgame :=
| random_p | city_name | json_lot_type_dict | json_street_type_dict | ready_flag.

(** The ['data'] of a message: [str(x)] or [x] itself. *)
Inductive Data := Str (x : Startgame) | Raw (x : Startgame).

(** [emit(event, {'data': data, 'count': count})] *)
Record Emit := { event : string; data : Data; count : Z }.

(** What a handler does: it emits and leaves a session, or raises
    [KeyError] at [session['receive_count']]. *)
Inductive Reply :=
| Emitted (s : gmap string Z) (e : Emit)
| KeyError (s : gmap string Z).

(** [session['receive_count'] = session.get('receive_count', 0) + 1] *)
Definition count_message (s : gmap string Z) : gmap string Z :=
  <["receive_count" := (default 0 (s !! "receive_count") + 1)%Z]> s.

(** [emit(event, {'data': data, 'count': session['receive_count']})] *)
Definition emit_with_count (event : string) (data : Data) (s : gmap string Z) : Reply :=
  match s !! "receive_count" with
  | Some n => Emitted s {| event := event; data := data; count := n |}
  | None => KeyError s
  end.

(** [send_random_person], on ['get_random_person'] *)
Definition send_random_person (s : gmap string Z) : Reply :=
  emit_with_count "return info" (Str random_p) (count_message s).

(** [send_city_name], on ['get_city_name'] *)
Definition send_city_name (s : gmap string Z) : Reply :=
  emit_with_count "return info" (Str city_name) (count_message s).

(** [send_lot_json], on ['get_lot_json'] *)
Definition send_lot_json (s : gmap string Z) : Reply :=
  emit_with_count "return lots" (Raw json_lot_type_dict) s.

(** [send_street_json], on ['get_street_json'] *)
Definition send_street_json (s : gmap string Z) : Reply :=
  emit_with_count "return streets" (Raw json_street_type_dict) s.

(** [ready], on ['ready']; the literal [000] is 0. *)
Definition ready (s : gmap string Z) : Reply :=
  Emitted s {| event := "ready response"; data := Str ready_flag; count := 0 |}.

(** The events a client can send. *)
Inductive Message :=
| get_random_person | get_city_name | get_lot_json | get_street_json | ready_message.

(** The handler registered for each event. *)
Definition on (m : Message) : gmap string Z -> Reply :=
  match m with
  | get_random_person => send_random_person
  | get_city_name => send_city_name
  | get_lot_json => send_lot_json
  | get_street_json => send_street_json
  | ready_message => ready
  end.

(** The event name and the data a handler emits. *)
Definition event_of (m : Message) : string :=
  match m with
  | get_random_person | get_city_name => "return info"
  | get_lot_json => "return lots"
  | get_street_json => "return streets"
  | ready_message => "ready response"
  end.

Definition data_of (m : Message) : Data :=
  match m with
  | get_random_person => Str random_p
  | get_city_name => Str city_name
  | get_lot_json => Raw json_lot_type_dict
  | get_street_json => Raw json_street_type_dict
  | ready_message => Str ready_flag
  end.

(** The session a reply leaves behind. *)
Definition session_of (r : Reply) : gmap string Z :=
  match r with Emitted s _ => s | KeyError s => s end.

(** The session after the client's messages [ms], oldest first. *)
Definition session_after (ms : list Message) (s : gmap string Z) : gmap string Z :=
  foldl (fun s m => session_of (on m s)) s ms.

(** The messages whose handlers count. *)
Definition counts (m : Message) : bool :=
  match m with
  | get_random_person | get_city_name => true
  | _ => false
  end.

(** How many of [ms] were counted. *)
Definition counted (ms : list Message) : Z := Z.of_nat (length (filter counts ms)).

End Server.

(** * The addresses of residence.py

    [lot.house_number] and [unit_number] are taken to be Python ints (the lot
    class is not part of the sources); ["{}".format(n)] renders an int in
    decimal, as [pretty] does. *)

Module Residence.

(** What the address methods read of a lot; [street] is [lot.street], which
    the methods no longer read (the line is commented out). *)
Record Lot := { house_number : Z; street : string }.

(** [DwellingPlace._init_generate_address] *)
Definition DwellingPlace_init_generate_address (lot : Lot) : string :=
  let house_number := house_number lot in
  let street := "wtf lane" in
  pretty house_number +:+ " " +:+ street.

(** [Apartment._init_generate_address] *)
Definition Apartment_init_generate_address (lot : Lot) (unit_number : Z) : string :=
  let house_number := house_number lot in
  let street := "wtf lane" in
  pretty house_number +:+ " " +:+ street +:+ " (Unit #" +:+ pretty unit_number +:+ ")".

(** A string without a blank. *)
Fixpoint no_blank (s : string) : Prop :=
  match s with
  | EmptyString => True
  | String c s => c <> " "%char /\ no_blank s
  end.

End Residence.

(** * Properties *)

(** ** Symbolic execution of the constructors *)

Lemma lookup_fresh (h : list Relationship) (r : Relationship) (n : nat) :
  n = length h -> (h ++ [r]) !! n = Some r.
Proof. intros ->. apply list_lookup_middle. reflexivity. Qed.

Lemma alter_fresh (f : Relationship -> Relationship) (h : list Relationship)
    (r : Relationship) (n : nat) :
  n = length h -> alter f n (h ++ [r]) = h ++ [f r].
Proof.
  intros ->. rewrite alter_app_r_alt by lia.
  replace (length h - length h)%nat with 0%nat by lia. reflexivity.
Qed.

Lemma lookup_older (h : list Relationship) (r : Relationship) (a : nat) :
  (a < length h)%nat -> (h ++ [r]) !! a = h !! a.
Proof. apply lookup_app_l. Qed.

Lemma alter_older (f : Relationship -> Relationship) (h : list Relationship)
    (r : Relationship) (a : nat) :
  (a < length h)%nat -> alter f a (h ++ [r]) = alter f a h ++ [r].
Proof. apply alter_app_l. Qed.

Lemma length_link (p : option rid) (self : rid) (h : list Relationship) :
  length (link p self h) = length h.
Proof. destruct p; simpl; [apply length_alter | reflexivity]. Qed.

(** One step of symbolic execution on a heap whose last object is the one
    under construction. *)
Ltac py_fresh :=
  first [ rewrite lookup_fresh by (rewrite ?length_link, ?length_alter; reflexivity)
        | rewrite alter_fresh by (rewrite ?length_link, ?length_alter; reflexivity) ].

Ltac py_unfold :=
  unfold getattr, setattr, set_ledger, PersonMentalModel, build_up, not_none,
         new_object, modify_world, get_world, deref, raise, ret, bind.

Ltac py_simpl :=
  cbn [with_heap with_relationships with_mental_models
       heap relationships mental_models config date people
       compatibility charge_increment charge spark_increment spark owner subject
       type preceded_by succeeded_by where_they_met when_they_met relationship
       set_succeeded_by set_where_they_met set_when_they_met set_relationship
       set_compatibility set_charge_increment set_charge set_spark_increment
       set_spark new_record final_world returned].

Ltac py_run := py_unfold; repeat (py_simpl; try py_fresh).

Lemma Kinship_returns (w : World) (o s : pid) (rel : string) :
  Kinship o s rel w =
  Returned {| config := config w; date := date w; people := people w;
              heap := heap w ++ [Kinship_record o s rel];
              relationships := <[(o, s) := length (heap w)]> (relationships w);
              mental_models := mental_models w |}
           (length (heap w)).
Proof. unfold Kinship. py_run. reflexivity. Qed.

Lemma Acquaintance_returns (w : World) (o s : pid) (p : option rid) :
  (forall a, p = Some a -> (a < length (heap w))%nat) ->
  Acquaintance o s p w =
  Returned {| config := config w; date := date w; people := people w;
              heap := link p (length (heap w)) (heap w) ++ [Acquaintance_record w o s p];
              relationships := <[(o, s) := length (heap w)]> (relationships w);
              mental_models := observed o s (mental_models w) |}
           (length (heap w)).
Proof.
  intros Hp. unfold Acquaintance, form_or_build_up_mental_model, observed, link.
  destruct p as [a|].
  - specialize (Hp a eq_refl).
    destruct (lookup_lt_is_Some_2 _ _ Hp) as [pr Hpr].
    py_unfold. py_simpl.
    rewrite lookup_older by exact Hp. rewrite Hpr. py_simpl.
    rewrite alter_older by exact Hp.
    repeat (py_simpl; try py_fresh).
    destruct (mental_models w !! (o, s)); reflexivity.
  - py_run.
    destruct (mental_models w !! (o, s)); reflexivity.
Qed.

Lemma lookup_linked (h : list Relationship) (r pr : Relationship) (a : nat)
    (f : Relationship -> Relationship) :
  h !! a = Some pr -> (alter f a h ++ [r]) !! a = Some (f pr).
Proof.
  intros Ha. rewrite lookup_app_l.
  - rewrite list_lookup_alter_eq, Ha. reflexivity.
  - rewrite length_alter. eapply lookup_lt_Some, Ha.
Qed.

(** Without a predecessor the constructor raises at
    [self.preceded_by.succeeded_by = self]; the ledger and every existing
    object are untouched (the fresh object is unreachable). *)
Lemma successor_init_no_predecessor (t : RelType) (o s : pid) (w : World) :
  successor_init t o s None w
  = Raised (with_heap (heap w ++ [new_record t o s None]) w).
Proof. unfold successor_init. py_run. reflexivity. Qed.

(** With a predecessor [pr] the constructor returns when [pr] has both charge
    attributes, and raises at the first missing one otherwise. *)
Lemma successor_init_outcome (t : RelType) (o s : pid) (a : rid) (pr : Relationship)
    (w : World) :
  heap w !! a = Some pr ->
  successor_init t o s (Some a) w =
  match charge_increment pr, charge pr with
  | None, _ => Raised (successor_built t o s a pr None None w)
  | Some ci, None => Raised (successor_built t o s a pr (Some ci) None w)
  | Some ci, Some c =>
      Returned (successor_built t o s a pr (Some ci) (Some c) w) (length (heap w))
  end.
Proof.
  intros Hpr. unfold successor_init, successor_built.
  assert (Ha : (a < length (heap w))%nat) by (eapply lookup_lt_Some, Hpr).
  py_unfold. py_simpl.
  rewrite lookup_older by exact Ha. rewrite Hpr. py_simpl.
  rewrite alter_older by exact Ha.
  repeat (py_simpl; try py_fresh;
          try rewrite (lookup_linked _ _ pr) by exact Hpr).
  destruct (charge_increment pr) as [ci|]; [|reflexivity].
  repeat (py_simpl; try py_fresh;
          try rewrite (lookup_linked _ _ pr) by exact Hpr).
  destruct (charge pr) as [c|]; [|reflexivity].
  repeat (py_simpl; try py_fresh).
  reflexivity.
Qed.

(** ** Symbolic execution of [progress_relationship] *)

Ltac py_len := rewrite ?length_app, ?length_alter; simpl; lia.

Ltac py_at Hr :=
  repeat first [ rewrite lookup_app_l by py_len
               | rewrite alter_app_l by py_len
               | rewrite list_lookup_alter_eq
               | rewrite Hr ];
  cbn [fmap option_fmap option_map].

Lemma start_friendship_or_enmity_outcome (self : rid) (r : Relationship) (ci c : Q)
    (w : World) :
  heap w !! self = Some r ->
  charge_increment r = Some ci ->
  charge r = Some c ->
  start_friendship_or_enmity self w = Returned (transitioned self r ci c w) tt.
Proof.
  intros Hr Hci Hc. unfold start_friendship_or_enmity, transitioned, crossing.
  unfold Friendship, Enmity.
  py_unfold. repeat (first [rewrite Hr | rewrite Hc]; py_simpl).
  destruct (Qltb (charge_threshold_friendship (config w)) c).
  - rewrite (successor_init_outcome _ _ _ _ r) by exact Hr.
    rewrite Hci, Hc. reflexivity.
  - destruct (Qltb c (charge_threshold_enmity (config w))); [|reflexivity].
    rewrite (successor_init_outcome _ _ _ _ r) by exact Hr.
    rewrite Hci, Hc. reflexivity.
Qed.

(** [Enmity.progress_relationship] and [Friendship.progress_relationship]
    add the bare increment and then run the threshold test. *)
Lemma Enmity_progress_outcome (self : rid) (r : Relationship) (ci c : Q) (w : World) :
  heap w !! self = Some r ->
  charge_increment r = Some ci ->
  charge r = Some c ->
  Enmity_progress_relationship self w =
  Returned (transitioned self (set_charge (c + ci) r) ci (c + ci)
              (charged self (c + ci) w)) tt.
Proof.
  intros Hr Hci Hc. unfold Enmity_progress_relationship.
  py_unfold. repeat (first [rewrite Hr | rewrite Hc | rewrite Hci]; py_simpl).
  fold (charged self (c + ci) w).
  erewrite start_friendship_or_enmity_outcome; [reflexivity| |exact Hci|reflexivity].
  unfold charged. py_simpl. py_at Hr. reflexivity.
Qed.

Lemma Friendship_progress_outcome (self : rid) (r : Relationship) (ci c : Q) (w : World) :
  heap w !! self = Some r ->
  charge_increment r = Some ci ->
  charge r = Some c ->
  Friendship_progress_relationship self w =
  Returned (transitioned self (set_charge (c + ci) r) ci (c + ci)
              (charged self (c + ci) w)) tt.
Proof. apply Enmity_progress_outcome. Qed.

Lemma Acquaintance_progress_outcome (self : rid) (r : Relationship) (ci c si sp : Q)
    (w : World) :
  heap w !! self = Some r ->
  charge_increment r = Some ci ->
  charge r = Some c ->
  spark_increment r = Some si ->
  spark r = Some sp ->
  Acquaintance_progress_relationship self w =
  Returned
    (spark_progressed self (owner r) (subject r)
       (si * spark_decay_rate (config w))
       (sp + si * spark_decay_rate (config w) * age_effect w r)
       (transitioned self (set_charge (c + ci * age_effect w r) r) ci
          (c + ci * age_effect w r)
          (charged self (c + ci * age_effect w r) w)))
    tt.
Proof.
  intros Hr Hci Hc Hsi Hsp.
  unfold Acquaintance_progress_relationship, Acquaintance_progress_statements,
    age_difference_effect_on_charge_increment,
    age_difference_effect_on_spark_increment, form_or_build_up_mental_model.
  cbn [sequence].
  py_unfold. repeat (first [rewrite Hr | rewrite Hc | rewrite Hci]; py_simpl).
  fold (age_effect w r). set (e := age_effect w r).
  fold (charged self (c + ci * e) w).
  assert (Hr1 : heap (charged self (c + ci * e) w) !! self = Some (set_charge (c + ci * e) r)).
  { unfold charged. py_simpl. py_at Hr. reflexivity. }
  rewrite (start_friendship_or_enmity_outcome _ _ ci (c + ci * e) _ Hr1 Hci eq_refl).
  assert (Hlen : (self < length (heap w))%nat) by (eapply lookup_lt_Some, Hr).
  clear Hr1.
  unfold spark_progressed, transitioned, observed, successor_built, charged.
  destruct (crossing _ _) as [t|].
  - repeat (py_simpl; py_at Hr; rewrite ?Hsi, ?Hsp).
    destruct (mental_models w !! (owner r, subject r)); reflexivity.
  - repeat (py_simpl; py_at Hr; rewrite ?Hsi, ?Hsp).
    destruct (mental_models w !! (owner r, subject r)); reflexivity.
Qed.

(** ** Compatibility, charge increment and spark at creation (C5 - C8) *)

Lemma Qabs_diff_bounds (x y : Q) :
  in_range x -> in_range y -> 0 <= Qabs (x - y) /\ Qabs (x - y) <= 2.
Proof.
  intros [Hx1 Hx2] [Hy1 Hy2]. split; [apply Qabs_nonneg|].
  apply Qabs_Qle_condition. split; lra.
Qed.

Lemma trait_distance_bounds (a b : Personality) :
  similarity_traits_in_range a -> similarity_traits_in_range b ->
  0 <= trait_distance a b /\ trait_distance a b <= 6.
Proof.
  intros (Ho & He & Ha) (Ho' & He' & Ha'). unfold trait_distance.
  pose proof (Qabs_diff_bounds _ _ Ho Ho').
  pose proof (Qabs_diff_bounds _ _ He He').
  pose proof (Qabs_diff_bounds _ _ Ha Ha').
  split; lra.
Qed.

Lemma Qabs_diff_same (x y : Q) : x == y -> Qabs (x - y) == 0.
Proof.
  intros H. assert (E : x - y == 0) by lra. rewrite E. reflexivity.
Qed.

Lemma trait_distance_same (a b : Personality) :
  same_similarity_traits a b -> trait_distance a b == 0.
Proof.
  intros (Ho & He & Ha). unfold trait_distance.
  rewrite (Qabs_diff_same _ _ Ho), (Qabs_diff_same _ _ He), (Qabs_diff_same _ _ Ha).
  reflexivity.
Qed.

Lemma compatibility_formula (a b : Person) :
  _init_get_compatibility a b = (3 - trait_distance (personality a) (personality b)) / 3.
Proof. reflexivity. Qed.

(** The record at the fresh address after a constructor returned. *)
Lemma lookup_constructed (h : list Relationship) (r : Relationship) (n : nat) :
  length h = n -> (h ++ [r]) !! n = Some r.
Proof. intros <-. apply lookup_fresh. reflexivity. Qed.

(** C5. For all owner and subject traits in [-1, 1], with [d] the sum of the
    absolute differences in openness, extroversion and agreeableness, the
    compatibility stored by [Acquaintance.__init__] is [(3 - d) / 3] and
    lies in [-1, 1]; identical trait triples give exactly 1 and maximal
    divergence ([d = 6]) gives -1. *)
Theorem compatibility_at_creation (w : World) (o s : pid) (p : option rid) :
  valid_ref w p ->
  similarity_traits_in_range (personality (people w o)) ->
  similarity_traits_in_range (personality (people w s)) ->
  let d := trait_distance (personality (people w o)) (personality (people w s)) in
  exists w' self r c,
    Acquaintance o s p w = Returned w' self
    /\ heap w' !! self = Some r
    /\ compatibility r = Some c
    /\ c == (3 - d) / 3
    /\ (-1 <= c /\ c <= 1)
    /\ (same_similarity_traits (personality (people w o)) (personality (people w s))
        -> c == 1)
    /\ (d == 6 -> c == -1).
Proof.
  intros Hp Ho Hs d.
  eexists _, _, _, _. split; [apply Acquaintance_returns, Hp|].
  split; [apply lookup_constructed, length_link|].
  split; [reflexivity|].
  rewrite compatibility_formula. fold d.
  destruct (trait_distance_bounds _ _ Ho Hs) as [Hd0 Hd6]. fold d in Hd0, Hd6.
  split; [reflexivity|].
  split; [split|split].
  - apply Qle_shift_div_l; lra.
  - apply Qle_shift_div_r; lra.
  - intros Hsame. apply trait_distance_same in Hsame. fold d in Hsame.
    rewrite Hsame. reflexivity.
  - intros H6. rewrite H6. reflexivity.
Qed.

(** C6. At Acquaintance creation [charge_increment] is compatibility plus
    owner extroversion times its multiplier plus subject agreeableness times
    its multiplier, the whole sum multiplied by the sex-difference factor
    when owner and subject differ in sex; [charge] starts at exactly this
    increment. *)
Theorem charge_increment_at_creation (w : World) (o s : pid) (p : option rid) :
  valid_ref w p ->
  exists w' self r compat ci c,
    Acquaintance o s p w = Returned w' self
    /\ heap w' !! self = Some r
    /\ compatibility r = Some compat
    /\ charge_increment r = Some ci
    /\ charge r = Some c
    /\ ci == spec_charge_increment (config w) (people w o) (people w s) compat
    /\ c = ci.
Proof.
  intros Hp.
  eexists _, _, _, _, _, _. split; [apply Acquaintance_returns, Hp|].
  split; [apply lookup_constructed, length_link|].
  do 3 (split; [reflexivity|]).
  split; [|reflexivity].
  unfold _init_determine_charge_increment, spec_charge_increment.
  destruct (male (people w o)), (male (people w s)); reflexivity.
Qed.

(** C7. An Acquaintance whose subject is in the owner's extended family, or
    whose subject's sex is not one the owner is attracted to, is created with
    [spark_increment] 0 and [spark] 0, whatever the personalities and the
    configured multipliers. *)
Theorem spark_gated_at_creation (w : World) (o s : pid) (p : option rid) :
  valid_ref w p ->
  spark_gated (people w o) (people w s) s ->
  exists w' self r si sp,
    Acquaintance o s p w = Returned w' self
    /\ heap w' !! self = Some r
    /\ spark_increment r = Some si
    /\ spark r = Some sp
    /\ si == 0 /\ sp == 0.
Proof.
  intros Hp Hgate.
  eexists _, _, _, _, _. split; [apply Acquaintance_returns, Hp|].
  split; [apply lookup_constructed, length_link|].
  do 2 (split; [reflexivity|]).
  assert (Hz : _init_determine_initial_spark_increment (config w) (people w o)
                 (people w s) s = 0).
  { unfold _init_determine_initial_spark_increment, in_extended_family.
    destruct Hgate as [Hfam | [[Hm Ha] | [Hf Ha]]].
    - rewrite bool_decide_eq_true_2 by exact Hfam. reflexivity.
    - rewrite Hm, Ha. destruct (bool_decide _); reflexivity.
    - rewrite Hf, Ha. destruct (bool_decide _); [reflexivity|].
      destruct (male (people w s) && negb (attracted_to_men (people w o)));
        reflexivity. }
  rewrite Hz. split; reflexivity.
Qed.

Lemma own_personality_effect (cfg : Config) (a b : Person) :
  _affect_initial_spark_increment_by_own_personality cfg a b
  == spec_personality_sum cfg (owner_sex_key a) (personality b).
Proof.
  unfold _affect_initial_spark_increment_by_own_personality, spec_personality_sum.
  cbv zeta. ring.
Qed.

Lemma acquaintance_personality_effect (cfg : Config) (a b : Person) :
  _affect_initial_spark_increment_by_acquaintance_personality cfg a b
  == spec_personality_sum cfg (owner_sex_key a) (personality b).
Proof.
  unfold _affect_initial_spark_increment_by_acquaintance_personality,
    spec_personality_sum.
  cbv zeta. ring.
Qed.

Lemma not_spark_gated (a b : Person) (b_id : pid) :
  ~ spark_gated a b b_id ->
  in_extended_family a b_id = false
  /\ male b && negb (attracted_to_men a) = false
  /\ female b && negb (attracted_to_women a) = false.
Proof.
  intros Hn. unfold spark_gated, in_extended_family in *. repeat split.
  - apply bool_decide_eq_false_2. tauto.
  - destruct (male b), (attracted_to_men a); try reflexivity. exfalso. tauto.
  - destruct (female b), (attracted_to_women a); try reflexivity. exfalso. tauto.
Qed.

(** C8. Both personality helpers of the initial spark increment read the
    subject's traits only: each is the spec's sum over the subject's
    personality under the owner's sex key, and neither changes when the
    owner's personality does.  Hence they agree; and when no gate applies the
    stored initial [spark_increment] is twice that sum. *)
Theorem spark_helpers_read_subject (w : World) (o s : pid) (p : option rid) :
  let cfg := config w in
  let a := people w o in
  let b := people w s in
  let sum := spec_personality_sum cfg (owner_sex_key a) (personality b) in
  _affect_initial_spark_increment_by_own_personality cfg a b == sum
  /\ _affect_initial_spark_increment_by_acquaintance_personality cfg a b == sum
  /\ _affect_initial_spark_increment_by_own_personality cfg a b
     = _affect_initial_spark_increment_by_acquaintance_personality cfg a b
  /\ (forall a', male a' = male a ->
        _affect_initial_spark_increment_by_own_personality cfg a' b
        = _affect_initial_spark_increment_by_own_personality cfg a b
        /\ _affect_initial_spark_increment_by_acquaintance_personality cfg a' b
           = _affect_initial_spark_increment_by_acquaintance_personality cfg a b)
  /\ (valid_ref w p -> ~ spark_gated a b s ->
      exists w' self r si,
        Acquaintance o s p w = Returned w' self
        /\ heap w' !! self = Some r
        /\ spark_increment r = Some si
        /\ si == 2 * sum).
Proof.
  intros cfg a b sum.
  split; [apply own_personality_effect|].
  split; [apply acquaintance_personality_effect|].
  split; [reflexivity|].
  split.
  { intros a' Hsex.
    unfold _affect_initial_spark_increment_by_own_personality,
      _affect_initial_spark_increment_by_acquaintance_personality, owner_sex_key.
    rewrite Hsex. split; reflexivity. }
  intros Hp Hfree.
  eexists _, _, _, _. split; [apply Acquaintance_returns, Hp|].
  split; [apply lookup_constructed, length_link|].
  split; [reflexivity|].
  destruct (not_spark_gated _ _ _ Hfree) as (Hfam & Hm & Hf).
  unfold _init_determine_initial_spark_increment.
  fold a b cfg. rewrite Hfam, Hm, Hf. cbv zeta.
  rewrite own_personality_effect, acquaintance_personality_effect.
  fold sum. ring.
Qed.

Lemma valid_ref_None (w : World) : valid_ref w None.
Proof. intros a Ha. discriminate. Qed.

Lemma valid_ref_Some (w : World) (a : rid) :
  (a < length (heap w))%nat -> valid_ref w (Some a).
Proof. intros Ha b Hb. injection Hb as <-. exact Ha. Qed.

Lemma example_traits_in_range (i : pid) :
  similarity_traits_in_range (personality (example_people i)).
Proof.
  destruct i as [|[|[|i]]]; unfold similarity_traits_in_range, in_range; simpl;
    repeat split; lra.
Qed.

(** The sisters of [town_of_sisters] meet: identical traits, compatibility 1. *)
Lemma compatibility_at_creation_witness :
  exists w' self r c,
    Acquaintance 3%nat 0%nat (Some 0%nat) town_of_sisters = Returned w' self
    /\ heap w' !! self = Some r
    /\ compatibility r = Some c
    /\ c == 1.
Proof.
  destruct (compatibility_at_creation town_of_sisters 3%nat 0%nat (Some 0%nat))
    as (w' & self & r & c & Hret & Hr & Hc & _ & _ & Hsame & _).
  - apply valid_ref_Some. vm_compute. lia.
  - apply example_traits_in_range.
  - apply example_traits_in_range.
  - exists w', self, r, c. repeat split; try assumption.
    apply Hsame. repeat split; reflexivity.
Defined.

(** Persons 0 and 1 meet in [empty_town]; they differ in sex. *)
Lemma charge_increment_at_creation_witness :
  exists w' self r compat ci c,
    Acquaintance 0%nat 1%nat None empty_town = Returned w' self
    /\ heap w' !! self = Some r
    /\ compatibility r = Some compat
    /\ charge_increment r = Some ci
    /\ charge r = Some c
    /\ ci == spec_charge_increment example_config (example_people 0%nat)
               (example_people 1%nat) compat
    /\ c = ci.
Proof.
  apply (charge_increment_at_creation empty_town 0%nat 1%nat None).
  apply valid_ref_None.
Defined.

(** Person 0 meets her sister, person 3: no spark. *)
Lemma spark_gated_at_creation_witness :
  exists w' self r si sp,
    Acquaintance 0%nat 3%nat None empty_town = Returned w' self
    /\ heap w' !! self = Some r
    /\ spark_increment r = Some si
    /\ spark r = Some sp
    /\ si == 0 /\ sp == 0.
Proof.
  apply (spark_gated_at_creation empty_town 0%nat 3%nat None).
  - apply valid_ref_None.
  - left. simpl. constructor.
Defined.

Lemma example_not_gated : ~ spark_gated (example_people 0%nat) (example_people 1%nat) 1%nat.
Proof.
  intros [H | [[_ H] | [H _]]]; simpl in H.
  - apply list_elem_of_singleton in H. discriminate.
  - discriminate.
  - discriminate.
Qed.

(** Person 0 meets person 1, a man she may be attracted to. *)
Lemma spark_helpers_read_subject_witness :
  exists w' self r si,
    Acquaintance 0%nat 1%nat None empty_town = Returned w' self
    /\ heap w' !! self = Some r
    /\ spark_increment r = Some si
    /\ si == 2 * spec_personality_sum example_config key_f (all_traits (1 # 2)).
Proof.
  destruct (spark_helpers_read_subject empty_town 0%nat 1%nat None)
    as (_ & _ & _ & _ & H).
  apply H.
  - apply valid_ref_None.
  - apply example_not_gated.
Defined.

(** ** Reading a record back after a call *)

Lemma charged_lookup (self : rid) (r : Relationship) (v : Q) (w : World) :
  heap w !! self = Some r ->
  heap (charged self v w) !! self = Some (set_charge v r).
Proof. intros Hr. unfold charged. py_simpl. py_at Hr. reflexivity. Qed.

Lemma transitioned_lookup (self : rid) (r : Relationship) (ci c : Q) (w : World) :
  heap w !! self = Some r ->
  heap (transitioned self r ci c w) !! self
  = Some (superseded (length (heap w)) (crossing (config w) c) r).
Proof.
  intros Hr. unfold transitioned, superseded.
  assert (Hlen : (self < length (heap w))%nat) by (eapply lookup_lt_Some, Hr).
  destruct (crossing _ _); [|exact Hr].
  unfold successor_built. py_simpl. py_at Hr. reflexivity.
Qed.

Lemma transitioned_length (self : rid) (r : Relationship) (ci c : Q) (w : World) :
  length (heap (transitioned self r ci c w))
  = match crossing (config w) c with
    | Some _ => S (length (heap w))
    | None => length (heap w)
    end.
Proof.
  unfold transitioned. destruct (crossing _ _); [|reflexivity].
  unfold successor_built. py_simpl. rewrite length_app, length_alter. simpl. lia.
Qed.


Lemma spark_progressed_lookup (self : rid) (o s : pid) (r : Relationship) (si sp : Q)
    (w : World) :
  heap w !! self = Some r ->
  heap (spark_progressed self o s si sp w) !! self
  = Some (set_spark sp (set_spark_increment si r)).
Proof. intros Hr. unfold spark_progressed. py_simpl. py_at Hr. reflexivity. Qed.

Lemma spark_progressed_lookup_ne (self a : rid) (o s : pid) (si sp : Q) (w : World) :
  self <> a ->
  heap (spark_progressed self o s si sp w) !! a = heap w !! a.
Proof.
  intros Hne. unfold spark_progressed. py_simpl.
  rewrite !list_lookup_alter_ne by exact Hne. reflexivity.
Qed.

(** The three methods behind one dispatch. *)
Lemma progress_relationship_dispatch (self : rid) (r : Relationship) (w : World) :
  heap w !! self = Some r ->
  progress_relationship self w =
  match type r with
  | acquaintance => Acquaintance_progress_relationship self w
  | enmity => Enmity_progress_relationship self w
  | friendship => Friendship_progress_relationship self w
  | kinship => Raised w
  end.
Proof.
  intros Hr. unfold progress_relationship. py_unfold. rewrite Hr.
  destruct (type r); reflexivity.
Qed.

(** ** The charge step (C1) *)

Lemma charge_superseded (n : rid) (t : option RelType) (r : Relationship) :
  charge (superseded n t r) = charge r.
Proof. destruct t; reflexivity. Qed.

(** C1 (amended). One call to [progress_relationship] adds to [charge] the
    increment times the age-difference effect on an Acquaintance, and the
    bare increment on a Friendship or an Enmity. *)
Theorem charge_step_by_class (w : World) (self : rid) (r : Relationship) (c ci : Q) :
  heap w !! self = Some r ->
  charge r = Some c ->
  charge_increment r = Some ci ->
  type r <> kinship ->
  (type r = acquaintance -> is_Some (spark_increment r) /\ is_Some (spark r)) ->
  exists w' r',
    progress_relationship self w = Returned w' tt
    /\ heap w' !! self = Some r'
    /\ charge r' = Some (match type r with
                         | acquaintance => c + ci * age_effect w r
                         | _ => c + ci
                         end).
Proof.
  intros Hr Hc Hci Hkin Hspark.
  rewrite (progress_relationship_dispatch _ _ _ Hr).
  destruct (type r) eqn:Ht; [congruence| | |].
  - destruct (Hspark eq_refl) as [[si Hsi] [sp Hsp]].
    eexists _, _. split; [apply (Acquaintance_progress_outcome _ _ _ _ _ _ _ Hr Hci Hc Hsi Hsp)|].
    split.
    + apply spark_progressed_lookup, transitioned_lookup, charged_lookup, Hr.
    + cbn [charge set_spark set_spark_increment]. rewrite charge_superseded. reflexivity.
  - eexists _, _. split; [apply (Friendship_progress_outcome _ _ _ _ _ Hr Hci Hc)|].
    split.
    + apply transitioned_lookup, charged_lookup, Hr.
    + rewrite charge_superseded. reflexivity.
  - eexists _, _. split; [apply (Enmity_progress_outcome _ _ _ _ _ Hr Hci Hc)|].
    split.
    + apply transitioned_lookup, charged_lookup, Hr.
    + rewrite charge_superseded. reflexivity.
Qed.

(** C1 fails on a Friendship: record 1 of [town_of_friends] has charge 11/2
    and increment 3/2, the age-difference effect of its pair is 1/3, and one
    call leaves charge 7 (the bare increment added), not 6. *)
Lemma charge_step_counterexample :
  exists r r' c ci c',
    heap town_of_friends !! 1%nat = Some r
    /\ type r = friendship
    /\ charge r = Some c /\ charge_increment r = Some ci
    /\ heap (progress 1%nat town_of_friends) !! 1%nat = Some r'
    /\ charge r' = Some c'
    /\ c == 11 # 2 /\ ci == 3 # 2 /\ age_effect town_of_friends r == 1 # 3
    /\ c' == 7
    /\ ~ c' == c + ci * age_effect town_of_friends r.
Proof.
  eexists _, _, _, _, _.
  split; [vm_compute; reflexivity|].
  split; [reflexivity|].
  split; [reflexivity|]. split; [reflexivity|].
  split; [vm_compute; reflexivity|].
  split; [reflexivity|].
  repeat split; try (vm_compute; reflexivity).
  vm_compute. discriminate.
Qed.

(** The Friendship of [town_of_friends] progresses by its bare increment. *)
Lemma charge_step_by_class_witness :
  exists c ci w' r',
    progress_relationship 1%nat town_of_friends = Returned w' tt
    /\ heap w' !! 1%nat = Some r'
    /\ charge r' = Some (c + ci)
    /\ c == 11 # 2 /\ ci == 3 # 2.
Proof.
  eexists _, _.
  edestruct (charge_step_by_class town_of_friends 1%nat) as (w' & r' & Hret & Hr' & Hc').
  - vm_compute. reflexivity.
  - reflexivity.
  - reflexivity.
  - discriminate.
  - discriminate.
  - exists w', r'. split; [exact Hret|]. split; [exact Hr'|].
    split; [exact Hc'|]. split; vm_compute; reflexivity.
Defined.

(** ** Threshold transitions (C4) *)

Lemma Qltb_lt (x y : Q) : Qltb x y = true <-> x < y.
Proof.
  unfold Qltb. rewrite negb_true_iff. split.
  - intros H. apply Qnot_le_lt. intros Hle. apply Qle_bool_iff in Hle. congruence.
  - intros H. destruct (Qle_bool y x) eqn:E; [|reflexivity].
    apply Qle_bool_iff in E. exfalso. exact (Qlt_not_le _ _ H E).
Qed.

Lemma Qltb_not_lt (x y : Q) : Qltb x y = false <-> ~ x < y.
Proof.
  rewrite <- Qltb_lt. destruct (Qltb x y); split; intros; congruence.
Qed.

Lemma crossing_cases (cfg : Config) (c : Q) :
  (charge_threshold_friendship cfg < c /\ crossing cfg c = Some friendship)
  \/ (~ charge_threshold_friendship cfg < c /\ c < charge_threshold_enmity cfg
      /\ crossing cfg c = Some enmity)
  \/ (~ charge_threshold_friendship cfg < c /\ ~ c < charge_threshold_enmity cfg
      /\ crossing cfg c = None).
Proof.
  unfold crossing.
  destruct (Qltb (charge_threshold_friendship cfg) c) eqn:Ef.
  - left. split; [apply Qltb_lt, Ef | reflexivity].
  - right. apply Qltb_not_lt in Ef.
    destruct (Qltb c (charge_threshold_enmity cfg)) eqn:Ee.
    + left. split; [exact Ef|]. split; [apply Qltb_lt, Ee | reflexivity].
    + right. split; [exact Ef|]. split; [apply Qltb_not_lt, Ee | reflexivity].
Qed.

Lemma crossing_friendship (cfg : Config) (c : Q) :
  crossing cfg c = Some friendship <-> charge_threshold_friendship cfg < c.
Proof.
  destruct (crossing_cases cfg c) as [[H E] | [(H & H' & E) | (H & H' & E)]];
    rewrite E; split; intros; try congruence; tauto.
Qed.

Lemma crossing_enmity (cfg : Config) (c : Q) :
  crossing cfg c = Some enmity
  <-> ~ charge_threshold_friendship cfg < c /\ c < charge_threshold_enmity cfg.
Proof.
  destruct (crossing_cases cfg c) as [[H E] | [(H & H' & E) | (H & H' & E)]];
    rewrite E; split; intros; try congruence; tauto.
Qed.

Lemma crossing_none (cfg : Config) (c : Q) :
  crossing cfg c = None
  <-> ~ charge_threshold_friendship cfg < c /\ ~ c < charge_threshold_enmity cfg.
Proof.
  destruct (crossing_cases cfg c) as [[H E] | [(H & H' & E) | (H & H' & E)]];
    rewrite E; split; intros; try congruence; tauto.
Qed.

Lemma crossing_kind (cfg : Config) (c : Q) (t : RelType) :
  crossing cfg c = Some t -> t = friendship \/ t = enmity.
Proof.
  unfold crossing.
  destruct (Qltb _ _); [|destruct (Qltb _ _)]; intros H; inversion H; auto.
Qed.

Lemma transitioned_constructed (self : rid) (r : Relationship) (ci c : Q) (w : World)
    (n : nat) :
  n = length (heap w) ->
  drop n (heap (transitioned self r ci c w))
  = successors self r ci c (crossing (config w) c).
Proof.
  intros ->. unfold transitioned, successors.
  destruct (crossing _ _).
  - unfold successor_built. py_simpl.
    apply drop_app_length'. rewrite length_alter. reflexivity.
  - apply drop_all.
Qed.

Lemma charged_length (self : rid) (v : Q) (w : World) :
  length (heap (charged self v w)) = length (heap w).
Proof. unfold charged. py_simpl. apply length_alter. Qed.

(** What one call does, whatever the class of the record: the new charge, the
    records constructed, and the link to the successor. *)
Lemma progress_relationship_outcome (w : World) (self : rid) (r : Relationship)
    (c ci : Q) :
  heap w !! self = Some r ->
  progressable r c ci ->
  let c' := progressed_charge w r c ci in
  let t := crossing (config w) c' in
  exists w' r',
    progress_relationship self w = Returned w' tt
    /\ heap w' !! self = Some r'
    /\ charge r' = Some c'
    /\ charge_increment r' = Some ci
    /\ succeeded_by r' = succeeded_by (superseded (length (heap w)) t r)
    /\ constructed w w' = successors self (set_charge c' r) ci c' t
    /\ config w' = config w.
Proof.
  intros Hr (Hc & Hci & Hkin & Hspark) c' t.
  assert (Hlen : (self < length (heap w))%nat) by (eapply lookup_lt_Some, Hr).
  rewrite (progress_relationship_dispatch _ _ _ Hr).
  unfold constructed. subst t c'. unfold progressed_charge.
  destruct (type r) eqn:Ht; [congruence| | |].
  - destruct (Hspark eq_refl) as [[si Hsi] [sp Hsp]].
    eexists _, _.
    split; [apply (Acquaintance_progress_outcome _ _ _ _ _ _ _ Hr Hci Hc Hsi Hsp)|].
    split; [apply spark_progressed_lookup, transitioned_lookup, charged_lookup, Hr|].
    split; [cbn [charge set_spark set_spark_increment];
            rewrite charge_superseded; reflexivity|].
    split; [destruct (crossing _ _); exact Hci|].
    split; [rewrite charged_length; destruct (crossing _ _); reflexivity|].
    split.
    + unfold spark_progressed. py_simpl.
      rewrite !drop_alter_lt by exact Hlen.
      rewrite transitioned_constructed by (rewrite charged_length; reflexivity).
      reflexivity.
    + unfold transitioned. destruct (crossing _ _); reflexivity.
  - eexists _, _.
    split; [apply (Friendship_progress_outcome _ _ _ _ _ Hr Hci Hc)|].
    split; [apply transitioned_lookup, charged_lookup, Hr|].
    split; [rewrite charge_superseded; reflexivity|].
    split; [destruct (crossing _ _); exact Hci|].
    split; [rewrite charged_length; destruct (crossing _ _); reflexivity|].
    split.
    + rewrite transitioned_constructed by (rewrite charged_length; reflexivity).
      reflexivity.
    + unfold transitioned. destruct (crossing _ _); reflexivity.
  - eexists _, _.
    split; [apply (Enmity_progress_outcome _ _ _ _ _ Hr Hci Hc)|].
    split; [apply transitioned_lookup, charged_lookup, Hr|].
    split; [rewrite charge_superseded; reflexivity|].
    split; [destruct (crossing _ _); exact Hci|].
    split; [rewrite charged_length; destruct (crossing _ _); reflexivity|].
    split.
    + rewrite transitioned_constructed by (rewrite charged_length; reflexivity).
      reflexivity.
    + unfold transitioned. destruct (crossing _ _); reflexivity.
Qed.

Lemma progressed_charge_plain (w : World) (r : Relationship) (c ci : Q) :
  (type r = acquaintance -> age_effect w r == 1) ->
  progressed_charge w r c ci == c + ci.
Proof.
  intros He. unfold progressed_charge.
  destruct (type r); try reflexivity.
  rewrite (He eq_refl). ring.
Qed.

(** C4 (amended). After the charge update, [progress_relationship]
    constructs a Friendship iff the charge is strictly above
    [charge_threshold_friendship], otherwise an Enmity iff it is strictly
    below [charge_threshold_enmity], otherwise nothing.  With thresholds 5 and
    -5, a record with charge 4 that is a Friendship or an Enmity, or an
    Acquaintance whose age-difference effect is 1, reaches 5.5 and gets a
    Friendship successor when its increment is 1.5, and reaches 2 without a
    transition when its increment is -2. *)
Theorem threshold_transitions (w : World) (self : rid) (r : Relationship) (c ci : Q) :
  heap w !! self = Some r ->
  progressable r c ci ->
  exists w' r' c',
    progress_relationship self w = Returned w' tt
    /\ heap w' !! self = Some r'
    /\ charge r' = Some c'
    /\ (constructs w w' friendship self r <-> charge_threshold_friendship (config w) < c')
    /\ (~ charge_threshold_friendship (config w) < c' ->
        (constructs w w' enmity self r <-> c' < charge_threshold_enmity (config w)))
    /\ (constructed w w' = []
        <-> ~ charge_threshold_friendship (config w) < c'
            /\ ~ c' < charge_threshold_enmity (config w))
    /\ (charge_threshold_friendship (config w) == 5 ->
        charge_threshold_enmity (config w) == -5 ->
        c == 4 ->
        (type r = acquaintance -> age_effect w r == 1) ->
        (ci == 3 # 2 -> c' == 11 # 2 /\ constructs w w' friendship self r)
        /\ (ci == -2 -> c' == 2 /\ constructed w w' = [])).
Proof.
  intros Hr Hprog.
  destruct (progress_relationship_outcome w self r c ci Hr Hprog)
    as (w' & r' & Hret & Hr' & Hc' & _ & _ & Hnew & _).
  cbv zeta in Hc', Hnew.
  set (c' := progressed_charge w r c ci) in *.
  exists w', r', c'.
  do 3 (split; [assumption|]).
  assert (Hmk : forall t, crossing (config w) c' = Some t -> constructs w w' t self r).
  { intros t Ht. rewrite Ht in Hnew. eexists. split; [exact Hnew|].
    repeat split; reflexivity. }
  assert (Hinv : forall t, constructs w w' t self r -> crossing (config w) c' = Some t).
  { intros t (f & Hf & Htf & _). rewrite Hnew in Hf.
    destruct (crossing (config w) c') as [t'|]; [|discriminate].
    simpl in Hf. injection Hf as <-. simpl in Htf. congruence. }
  assert (Hfr : constructs w w' friendship self r
                <-> charge_threshold_friendship (config w) < c').
  { rewrite <- crossing_friendship. split; [apply Hinv | apply Hmk]. }
  assert (Hnone : constructed w w' = []
                  <-> ~ charge_threshold_friendship (config w) < c'
                      /\ ~ c' < charge_threshold_enmity (config w)).
  { rewrite <- crossing_none, Hnew.
    destruct (crossing (config w) c'); simpl; split; congruence. }
  split; [exact Hfr|].
  split.
  { intros Hnf. split.
    - intros H. apply Hinv, crossing_enmity in H. tauto.
    - intros H. apply Hmk, crossing_enmity. tauto. }
  split; [exact Hnone|].
  intros HF HE H4 He.
  pose proof (progressed_charge_plain w r c ci He) as Hplain. fold c' in Hplain.
  split; intros Hci.
  - split; [lra|]. apply Hfr. lra.
  - split; [lra|]. apply Hnone. split; lra.
Qed.

(** C4's example fails on an Acquaintance whose age-difference effect is not
    1: record 0 of [town_after 5] has charge 4 and increment 3/2, the
    thresholds are 5 and -5, the effect is 1/3; one call leaves charge 9/2
    and constructs nothing. *)
Lemma threshold_example_counterexample :
  exists r r' c ci c',
    heap (town_after 5) !! 0%nat = Some r
    /\ type r = acquaintance
    /\ charge r = Some c /\ charge_increment r = Some ci
    /\ c == 4 /\ ci == 3 # 2
    /\ charge_threshold_friendship (config (town_after 5)) == 5
    /\ charge_threshold_enmity (config (town_after 5)) == -5
    /\ heap (progress 0%nat (town_after 5)) !! 0%nat = Some r'
    /\ charge r' = Some c'
    /\ c' == 9 # 2
    /\ ~ c' == 11 # 2
    /\ constructed (town_after 5) (progress 0%nat (town_after 5)) = [].
Proof.
  eexists _, _, _, _, _.
  split; [vm_compute; reflexivity|].
  do 3 (split; [reflexivity|]).
  do 4 (split; [vm_compute; reflexivity|]).
  split; [vm_compute; reflexivity|].
  split; [reflexivity|].
  split; [vm_compute; reflexivity|].
  split; [vm_compute; discriminate|].
  vm_compute. reflexivity.
Qed.

(** The Friendship of [town_of_early_friends], with charge 4 and increment
    3/2, reaches 11/2 and gets a Friendship successor. *)
Lemma threshold_transitions_witness :
  exists w' r' c',
    progress_relationship 1%nat town_of_early_friends = Returned w' tt
    /\ heap w' !! 1%nat = Some r'
    /\ charge r' = Some c'
    /\ c' == 11 # 2
    /\ exists f, constructed town_of_early_friends w' = [f] /\ type f = friendship.
Proof.
  edestruct (threshold_transitions town_of_early_friends 1%nat)
    as (w' & r' & c' & Hret & Hr' & Hc' & _ & _ & _ & Hex).
  - vm_compute. reflexivity.
  - split; [reflexivity|]. split; [reflexivity|]. split; discriminate.
  - destruct Hex as [Hfr _]; try (vm_compute; reflexivity).
    + discriminate.
    + destruct Hfr as [Hv (f & Hf & Htf & _)]; [vm_compute; reflexivity|].
      exists w', r', c'. repeat split; try assumption.
      exists f. split; assumption.
Defined.

(** ** Constructing a successor (C9) *)

(** C9 (amended). [Friendship] and [Enmity] fail when constructed without a
    predecessor, leaving the ledger and every existing record as they were.
    That the predecessor has no successor yet is not checked: given a
    predecessor that carries the charge attributes, the constructor returns
    and overwrites the predecessor's [succeeded_by], whatever it held. *)
Theorem successor_needs_predecessor (w : World) (o s : pid) :
  (forall t, t = friendship \/ t = enmity ->
     returned (successor_init t o s None w) = None
     /\ relationships (final_world (successor_init t o s None w)) = relationships w
     /\ forall b r, heap w !! b = Some r ->
          heap (final_world (successor_init t o s None w)) !! b = Some r)
  /\ returned (Friendship o s None w) = None
  /\ returned (Enmity o s None w) = None
  /\ (forall t a pr ci c,
        t = friendship \/ t = enmity ->
        heap w !! a = Some pr ->
        charge_increment pr = Some ci ->
        charge pr = Some c ->
        exists w',
          successor_init t o s (Some a) w = Returned w' (length (heap w))
          /\ heap w' !! a = Some (set_succeeded_by (Some (length (heap w))) pr)
          /\ heap w' !! length (heap w)
             = Some (successor_record t o s a pr (Some ci) (Some c))).
Proof.
  assert (Hnone : forall t, returned (successor_init t o s None w) = None
     /\ relationships (final_world (successor_init t o s None w)) = relationships w
     /\ forall b r, heap w !! b = Some r ->
          heap (final_world (successor_init t o s None w)) !! b = Some r).
  { intros t. rewrite successor_init_no_predecessor.
    split; [reflexivity|]. split; [reflexivity|].
    intros b r Hb. py_simpl. apply lookup_app_l_Some, Hb. }
  split; [intros t _; apply Hnone|].
  split; [apply Hnone|]. split; [apply Hnone|].
  intros t a pr ci c _ Hpr Hci Hc.
  rewrite (successor_init_outcome t o s a pr w Hpr), Hci, Hc.
  eexists. split; [reflexivity|].
  unfold successor_built. py_simpl. split.
  - apply lookup_linked, Hpr.
  - apply lookup_constructed, length_alter.
Qed.

(** C9 fails on a predecessor that already has a successor: record 0 of
    [town_of_friends] is succeeded by record 1, yet constructing a Friendship
    on it returns the new record 2 and record 0 is now succeeded by 2. *)
Lemma successor_of_superseded_counterexample :
  exists r w' r',
    heap town_of_friends !! 0%nat = Some r
    /\ succeeded_by r = Some 1%nat
    /\ Friendship 0%nat 3%nat (Some 0%nat) town_of_friends = Returned w' 2%nat
    /\ heap w' !! 0%nat = Some r'
    /\ succeeded_by r' = Some 2%nat.
Proof.
  eexists _, _, _.
  split; [vm_compute; reflexivity|].
  split; [reflexivity|].
  split; [vm_compute; reflexivity|].
  split; [vm_compute; reflexivity|].
  reflexivity.
Qed.

(** In [town_of_friends]: no predecessor, no record; the superseded record 0
    as predecessor, a new record 2. *)
Lemma successor_needs_predecessor_witness :
  returned (Friendship 0%nat 3%nat None town_of_friends) = None
  /\ returned (Enmity 0%nat 3%nat None town_of_friends) = None
  /\ exists w' r',
       Enmity 0%nat 3%nat (Some 0%nat) town_of_friends = Returned w' 2%nat
       /\ heap w' !! 0%nat = Some r'
       /\ succeeded_by r' = Some 2%nat.
Proof.
  destruct (successor_needs_predecessor town_of_friends 0%nat 3%nat)
    as (_ & Hf & He & Hsome).
  split; [exact Hf|]. split; [exact He|].
  edestruct (Hsome enmity 0%nat) as (w' & Hret & Hr' & _).
  - right. reflexivity.
  - vm_compute. reflexivity.
  - reflexivity.
  - reflexivity.
  - eexists w', _. split; [exact Hret|]. split; [exact Hr'|]. reflexivity.
Defined.

(** ** The spark statements of an Acquaintance (C10) *)




(** ** Ledger currency (C3) *)

Lemma successor_init_returned (t : RelType) (o s : pid) (p : option rid)
    (w w' : World) (self : rid) :
  valid_ref w p ->
  successor_init t o s p w = Returned w' self ->
  exists a pr ci c,
    p = Some a /\ heap w !! a = Some pr
    /\ charge_increment pr = Some ci /\ charge pr = Some c
    /\ self = length (heap w)
    /\ w' = successor_built t o s a pr (Some ci) (Some c) w.
Proof.
  intros Hp Hret. destruct p as [a|].
  - destruct (lookup_lt_is_Some_2 _ _ (Hp a eq_refl)) as [pr Hpr].
    rewrite (successor_init_outcome t o s a pr w Hpr) in Hret.
    destruct (charge_increment pr) as [ci|] eqn:Hci; [|discriminate].
    destruct (charge pr) as [c|] eqn:Hc; [|discriminate].
    injection Hret as <- <-. exists a, pr, ci, c. repeat split; assumption.
  - rewrite successor_init_no_predecessor in Hret. discriminate.
Qed.

Lemma successor_init_returns (t : RelType) (o s : pid) (p : option rid) (w : World) :
  (exists a pr, p = Some a /\ heap w !! a = Some pr
                /\ is_Some (charge_increment pr) /\ is_Some (charge pr)) ->
  exists w', successor_init t o s p w = Returned w' (length (heap w)).
Proof.
  intros (a & pr & -> & Hpr & [ci Hci] & [c Hc]).
  rewrite (successor_init_outcome t o s a pr w Hpr), Hci, Hc.
  eexists. reflexivity.
Qed.

Lemma fresh_address (w : World) : heap w !! length (heap w) = None.
Proof. apply lookup_ge_None_2. lia. Qed.

(** C3. After any record -- Kinship, Acquaintance, Friendship or Enmity -- has
    been constructed for the pair (owner, subject), the owner's ledger entry
    for the subject is that new record, whatever the entry held before. *)
Theorem ledger_currency (w : World) (k : Construction) (o s : pid) :
  valid_ref w (predecessor_of k) ->
  (constructible w k -> exists w' self, construct k o s w = Returned w' self)
  /\ (forall w' self,
        construct k o s w = Returned w' self ->
        relationships w' !! (o, s) = Some self
        /\ heap w !! self = None
        /\ exists r, heap w' !! self = Some r
                     /\ type r = class_of k /\ owner r = o /\ subject r = s).
Proof.
  intros Hp. destruct k as [rel|p|p|p]; simpl in Hp |- *.
  - split; [intros _; eexists _, _; apply Kinship_returns|].
    intros w' self Hret. rewrite Kinship_returns in Hret. injection Hret as <- <-.
    split; [apply lookup_insert_eq|]. split; [apply fresh_address|].
    eexists. split; [apply lookup_constructed; reflexivity|]. repeat split.
  - split; [intros _; eexists _, _; apply Acquaintance_returns, Hp|].
    intros w' self Hret. rewrite (Acquaintance_returns _ _ _ _ Hp) in Hret.
    injection Hret as <- <-.
    split; [apply lookup_insert_eq|]. split; [apply fresh_address|].
    eexists. split; [apply lookup_constructed, length_link|]. repeat split.
  - split.
    { intros Hc. destruct (successor_init_returns friendship o s p w Hc) as [w' Hw'].
      eexists _, _. exact Hw'. }
    intros w' self Hret.
    destruct (successor_init_returned _ _ _ _ _ _ _ Hp Hret)
      as (a & pr & ci & c & -> & Hpr & _ & _ & -> & ->).
    split; [apply lookup_insert_eq|]. split; [apply fresh_address|].
    eexists. split; [apply lookup_constructed, length_alter|]. repeat split.
  - split.
    { intros Hc. destruct (successor_init_returns enmity o s p w Hc) as [w' Hw'].
      eexists _, _. exact Hw'. }
    intros w' self Hret.
    destruct (successor_init_returned _ _ _ _ _ _ _ Hp Hret)
      as (a & pr & ci & c & -> & Hpr & _ & _ & -> & ->).
    split; [apply lookup_insert_eq|]. split; [apply fresh_address|].
    eexists. split; [apply lookup_constructed, length_alter|]. repeat split.
Qed.

(** The entry of the pair (0, 3) held record 1; after an Enmity is
    constructed for the pair it holds the new record. *)
Lemma ledger_currency_witness :
  relationships town_of_friends !! (0%nat, 3%nat) = Some 1%nat
  /\ exists w' self r,
       construct (NewEnmity (Some 1%nat)) 0%nat 3%nat town_of_friends = Returned w' self
       /\ relationships w' !! (0%nat, 3%nat) = Some self
       /\ heap town_of_friends !! self = None
       /\ heap w' !! self = Some r /\ type r = enmity.
Proof.
  split; [vm_compute; reflexivity|].
  destruct (ledger_currency town_of_friends (NewEnmity (Some 1%nat)) 0%nat 3%nat)
    as [Hret Hled].
  - apply valid_ref_Some. vm_compute. lia.
  - destruct Hret as (w' & self & Hret).
    + exists 1%nat. eexists. split; [reflexivity|].
      split; [vm_compute; reflexivity|]. split; eexists; reflexivity.
    + destruct (Hled w' self Hret) as (Hl & Hfresh & r & Hr & Ht & _).
      exists w', self, r. repeat split; assumption.
Defined.

(** ** Chain integrity (C2) *)

Lemma Enmity_progress_raises (self : rid) (r : Relationship) (w : World) :
  heap w !! self = Some r ->
  charge r = None \/ charge_increment r = None ->
  Enmity_progress_relationship self w = Raised w.
Proof.
  intros Hr Hmiss. unfold Enmity_progress_relationship. py_unfold.
  rewrite Hr. py_simpl.
  destruct (charge r) as [c|]; [|reflexivity].
  destruct Hmiss as [Hm|Hm]; [discriminate|].
  py_simpl. rewrite Hr. py_simpl. rewrite Hm. reflexivity.
Qed.

Lemma Friendship_progress_raises (self : rid) (r : Relationship) (w : World) :
  heap w !! self = Some r ->
  charge r = None \/ charge_increment r = None ->
  Friendship_progress_relationship self w = Raised w.
Proof. apply Enmity_progress_raises. Qed.

Lemma alter_alter (f g : Relationship -> Relationship) (a : nat) (l : list Relationship) :
  alter f a (alter g a l) = alter (f ∘ g) a l.
Proof.
  revert a. induction l as [|x l IH]; intros [|a]; simpl; try reflexivity.
  f_equal. apply IH.
Qed.

Lemma touches_refl (w : World) : touches w w.
Proof.
  exists 0%nat, id. split; [symmetry; apply list_alter_id; reflexivity|].
  split; [reflexivity|]. intros r. unfold same_identity. tauto.
Qed.

Ltac solve_identity :=
  intros; unfold same_identity, complete; cbn;
  repeat split; try reflexivity; try tauto; eauto.

(** The world after the threshold test, as one of the shapes. *)
Lemma transitioned_shape (self : rid) (r : Relationship) (c ci : Q) (w : World) :
  heap w !! self = Some r ->
  let c' := c in
  (crossing (config w) c' = None
   /\ heap (transitioned self (set_charge c' r) ci c' (charged self c' w))
      = alter (set_charge c') self (heap w)
   /\ relationships (transitioned self (set_charge c' r) ci c' (charged self c' w))
      = relationships w)
  \/ (exists t,
        crossing (config w) c' = Some t
        /\ heap (transitioned self (set_charge c' r) ci c' (charged self c' w))
           = alter (set_succeeded_by (Some (length (heap w))) ∘ set_charge c') self (heap w)
             ++ [successor_record t (owner r) (subject r) self (set_charge c' r)
                   (Some ci) (Some c')]
        /\ relationships (transitioned self (set_charge c' r) ci c' (charged self c' w))
           = <[(owner r, subject r) := length (heap w)]> (relationships w)).
Proof.
  intros Hr c'. unfold transitioned.
  change (config (charged self c' w)) with (config w).
  destruct (crossing (config w) c') as [t|].
  - right. exists t. split; [reflexivity|].
    unfold successor_built, charged. py_simpl.
    rewrite length_alter, alter_alter. split; reflexivity.
  - left. split; [reflexivity|]. split; reflexivity.
Qed.

(** One call of [progress_relationship] on an existing record. *)
Lemma progress_effect (w : World) (self : rid) (r : Relationship) :
  heap w !! self = Some r ->
  (type r = acquaintance -> complete r) ->
  touches w (progress self w)
  \/ succeeds w (progress self w) self (owner r) (subject r).
Proof.
  intros Hr Hcomplete. unfold progress.
  assert (Hlen : (self < length (heap w))%nat) by (eapply lookup_lt_Some, Hr).
  rewrite (progress_relationship_dispatch _ _ _ Hr).
  destruct (type r) eqn:Ht.
  - left. apply touches_refl.
  - destruct (Hcomplete eq_refl) as ([c Hc] & [ci Hci] & [si Hsi] & [sp Hsp]).
    rewrite (Acquaintance_progress_outcome _ _ _ _ _ _ _ Hr Hci Hc Hsi Hsp).
    cbn [final_world]. unfold spark_progressed. py_simpl.
    destruct (transitioned_shape self r (c + ci * age_effect w r) ci w Hr)
      as [(_ & Hh & Hl) | (t & Hcross & Hh & Hl)]; rewrite Hh, Hl.
    + left. rewrite !alter_alter. eexists _, _.
      split; [reflexivity|]. split; [reflexivity|]. solve_identity.
    + right. rewrite !alter_app_l by py_len. rewrite !alter_alter.
      eexists _, _. split; [exact Hlen|]. split; [reflexivity|].
      split; [solve_identity|]. do 4 (split; [reflexivity|]).
      split; [|reflexivity]. cbn [type successor_record].
      destruct (crossing_kind _ _ _ Hcross) as [-> | ->]; discriminate.
  - destruct (charge r) as [c|] eqn:Hc;
      [|rewrite (Friendship_progress_raises _ _ _ Hr (or_introl Hc));
        left; apply touches_refl].
    destruct (charge_increment r) as [ci|] eqn:Hci;
      [|rewrite (Friendship_progress_raises _ _ _ Hr (or_intror Hci));
        left; apply touches_refl].
    rewrite (Friendship_progress_outcome _ _ _ _ _ Hr Hci Hc). cbn [final_world].
    destruct (transitioned_shape self r (c + ci) ci w Hr)
      as [(_ & Hh & Hl) | (t & Hcross & Hh & Hl)].
    + left. eexists _, _. split; [exact Hh|]. split; [exact Hl|]. solve_identity.
    + right. eexists _, _. split; [exact Hlen|]. split; [exact Hh|].
      split; [solve_identity|]. do 4 (split; [reflexivity|]).
      split; [|exact Hl]. cbn [type successor_record].
      destruct (crossing_kind _ _ _ Hcross) as [-> | ->]; discriminate.
  - destruct (charge r) as [c|] eqn:Hc;
      [|rewrite (Enmity_progress_raises _ _ _ Hr (or_introl Hc));
        left; apply touches_refl].
    destruct (charge_increment r) as [ci|] eqn:Hci;
      [|rewrite (Enmity_progress_raises _ _ _ Hr (or_intror Hci));
        left; apply touches_refl].
    rewrite (Enmity_progress_outcome _ _ _ _ _ Hr Hci Hc). cbn [final_world].
    destruct (transitioned_shape self r (c + ci) ci w Hr)
      as [(_ & Hh & Hl) | (t & Hcross & Hh & Hl)].
    + left. eexists _, _. split; [exact Hh|]. split; [exact Hl|]. solve_identity.
    + right. eexists _, _. split; [exact Hlen|]. split; [exact Hh|].
      split; [solve_identity|]. do 4 (split; [reflexivity|]).
      split; [|exact Hl]. cbn [type successor_record].
      destruct (crossing_kind _ _ _ Hcross) as [-> | ->]; discriminate.
Qed.

Lemma successor_init_effect (t : RelType) (o s : pid) (p : option rid) (w : World) :
  t <> acquaintance ->
  valid_ref w p ->
  let w' := final_world (successor_init t o s p w) in
  adds w w' \/ exists a, p = Some a /\ succeeds w w' a o s.
Proof.
  intros Hna Hp w'. subst w'. destruct p as [a|].
  - right. exists a. split; [reflexivity|].
    pose proof (Hp a eq_refl) as Ha.
    destruct (lookup_lt_is_Some_2 _ _ Ha) as [pr Hpr].
    rewrite (successor_init_outcome t o s a pr w Hpr).
    assert (Hshape : forall ci c,
      succeeds w (successor_built t o s a pr ci c w) a o s).
    { intros ci c. unfold successor_built. eexists _, _.
      split; [exact Ha|]. split; [reflexivity|].
      split; [solve_identity|]. do 4 (split; [reflexivity|]).
      split; [|reflexivity]. intros Hty. cbn in Hty. congruence. }
    destruct (charge_increment pr); [destruct (charge pr)|]; apply Hshape.
  - left. rewrite successor_init_no_predecessor. cbn [final_world].
    eexists. split; [reflexivity|]. split; [reflexivity|].
    split; [intros Hty; cbn in Hty; congruence|]. left. reflexivity.
Qed.

Lemma construct_effect (k : Construction) (o s : pid) (w : World) :
  valid_ref w (predecessor_of k) ->
  let w' := final_world (construct k o s w) in
  adds w w' \/ exists a, predecessor_of k = Some a /\ succeeds w w' a o s.
Proof.
  intros Hp w'. subst w'. destruct k as [rel|p|p|p]; cbn [construct predecessor_of] in *.
  - left. rewrite Kinship_returns. cbn [final_world].
    eexists. split; [reflexivity|]. split; [reflexivity|].
    split; [intros Hty; discriminate|]. right. reflexivity.
  - rewrite (Acquaintance_returns _ _ _ _ Hp). cbn [final_world].
    assert (Hcomplete : complete (Acquaintance_record w o s p)).
    { unfold complete. cbn. repeat split; eexists; reflexivity. }
    destruct p as [a|].
    + right. exists a. split; [reflexivity|]. eexists _, _.
      split; [apply Hp; reflexivity|]. split; [reflexivity|].
      split; [solve_identity|]. do 4 (split; [reflexivity|]).
      split; [intros _; exact Hcomplete | reflexivity].
    + left. eexists. split; [reflexivity|]. split; [reflexivity|].
      split; [intros _; exact Hcomplete|]. right. reflexivity.
  - apply successor_init_effect; [discriminate | exact Hp].
  - apply successor_init_effect; [discriminate | exact Hp].
Qed.

(** Every call has one of the three shapes; under the caller's contract a
    record that gets a successor was the current entry of its pair. *)
Lemma call_effect (c : Call) (w : World) :
  refs_exist w c ->
  acquaintances_complete w ->
  touches w (run_call c w)
  \/ adds w (run_call c w)
  \/ exists a o s, succeeds w (run_call c w) a o s
                   /\ (targets_current w c -> relationships w !! (o, s) = Some a).
Proof.
  intros Hrefs Hcomplete. destruct c as [k o s|self|d ppl]; cbn [run_call refs_exist] in *.
  - destruct (construct_effect k o s w Hrefs) as [Hadd | (a & Hk & Hsucc)].
    + right. left. exact Hadd.
    + right. right. exists a, o, s. split; [exact Hsucc|].
      intros Hcur. apply Hcur, Hk.
  - destruct (lookup_lt_is_Some_2 _ _ Hrefs) as [r Hr].
    destruct (progress_effect w self r Hr (Hcomplete self r Hr)) as [Htouch | Hsucc].
    + left. exact Htouch.
    + right. right. exists self, (owner r), (subject r). split; [exact Hsucc|].
      intros (r0 & Hr0 & Hcur). rewrite Hr in Hr0. injection Hr0 as <-. exact Hcur.
  - left. exists 0%nat, id. split; [symmetry; apply list_alter_id; reflexivity|].
    split; [reflexivity|]. intros r. unfold same_identity. tauto.
Qed.

Lemma same_identity_refl (r : Relationship) : same_identity r r.
Proof. unfold same_identity. tauto. Qed.

Lemma lookup_alter_Some (g : Relationship -> Relationship) (a b : nat)
    (h : list Relationship) (r : Relationship) :
  h !! b = Some r ->
  alter g a h !! b = Some (if decide (a = b) then g r else r).
Proof.
  intros Hb. rewrite list_lookup_alter.
  destruct (decide (a = b)) as [->|]; [rewrite Hb; reflexivity | exact Hb].
Qed.

Lemma lookup_alter_None (g : Relationship -> Relationship) (a b : nat)
    (h : list Relationship) :
  h !! b = None -> alter g a h !! b = None.
Proof.
  intros Hb. apply lookup_ge_None. rewrite length_alter. apply lookup_ge_None, Hb.
Qed.

Lemma touches_heap_step (w w' : World) : touches w w' -> heap_step w w' None.
Proof.
  intros (a & g & Hh & _ & Hg). unfold heap_step. rewrite Hh.
  split; [|split].
  - intros b r Hb. rewrite (lookup_alter_Some g a b _ r Hb).
    eexists. split; [reflexivity|].
    destruct (decide (None = Some b)) as [?|_]; [discriminate|].
    destruct (decide (a = b)).
    + split; apply Hg.
    + split; [apply same_identity_refl | reflexivity].
  - intros b f Hnone Hb.
    rewrite (lookup_alter_None g a b _ Hnone) in Hb. discriminate.
  - discriminate.
Qed.

Lemma adds_heap_step (w w' : World) : adds w w' -> heap_step w w' None.
Proof.
  intros (f & Hh & Hsucc & Hcomp & _). unfold heap_step. rewrite Hh.
  split; [|split].
  - intros b r Hb. exists r. split; [apply lookup_app_l_Some, Hb|].
    split; [apply same_identity_refl|].
    destruct (decide (None = Some b)); [discriminate | reflexivity].
  - intros b f' Hnone Hb. apply lookup_snoc_Some in Hb.
    destruct Hb as [[_ Hb] | [-> <-]]; [congruence|].
    split; [reflexivity|]. split; [exact Hsucc|]. split; [exact Hcomp|].
    intros a Ha. discriminate.
  - intros a Ha. discriminate.
Qed.

Lemma succeeds_heap_step (w w' : World) (a : rid) (o s : pid) :
  succeeds w w' a o s -> heap_step w w' (Some a).
Proof.
  intros (g & f & Ha & Hh & Hg & _ & _ & Hpred & Hsucc & Hcomp & _).
  unfold heap_step. rewrite Hh. split; [|split].
  - intros b r Hb. eexists. split.
    + apply lookup_app_l_Some, lookup_alter_Some, Hb.
    + destruct (decide (a = b)) as [->|Hne].
      * rewrite decide_True by reflexivity. apply Hg.
      * rewrite decide_False by congruence.
        split; [apply same_identity_refl | reflexivity].
  - intros b f' Hnone Hb. apply lookup_snoc_Some in Hb.
    destruct Hb as [[_ Hb] | [Hlen <-]].
    + rewrite (lookup_alter_None g a b _ Hnone) in Hb. discriminate.
    + rewrite length_alter in Hlen.
      split; [exact Hlen|]. split; [exact Hsucc|]. split; [exact Hcomp|].
      intros a' Ha'. congruence.
  - intros a' Ha'. injection Ha' as <-. split; [exact Ha|].
    eexists. apply lookup_constructed, length_alter.
Qed.

Lemma chain_linked_step (w w' : World) (linked : option rid) :
  heap_step w w' linked -> chain_linked w -> chain_linked w'.
Proof.
  intros (Hold & Hnew & Hlink) Hchain R S rec' HR HS.
  destruct (heap w !! R) as [rec|] eqn:HRw.
  - destruct (Hold R rec HRw) as (rec'' & HR' & _ & Hsucc).
    rewrite HR in HR'. injection HR' as <-.
    destruct (decide (linked = Some R)) as [Hl|Hl].
    + destruct (Hlink R Hl) as [_ [f Hf]].
      rewrite Hsucc in HS. injection HS as <-.
      exists f. split; [exact Hf|].
      destruct (Hnew _ f (fresh_address w) Hf) as (_ & _ & _ & Hpred).
      apply Hpred, Hl.
    + rewrite Hsucc in HS.
      destruct (Hchain R S rec HRw HS) as (srec & HSw & Hp).
      destruct (Hold S srec HSw) as (srec' & HS' & (_ & _ & _ & Hpred & _) & _).
      exists srec'. split; [exact HS' | congruence].
  - destruct (Hnew R rec' HRw HR) as (_ & Hnone & _). congruence.
Qed.

Lemma acquaintances_complete_step (w w' : World) (linked : option rid) :
  heap_step w w' linked -> acquaintances_complete w -> acquaintances_complete w'.
Proof.
  intros (Hold & Hnew & _) Hcomp b r' Hb Hty.
  destruct (heap w !! b) as [r|] eqn:Hbw.
  - destruct (Hold b r Hbw) as (r'' & Hb' & (Ht & _ & _ & _ & Hkeep) & _).
    rewrite Hb in Hb'. injection Hb' as <-.
    apply Hkeep, (Hcomp b r Hbw). congruence.
  - destruct (Hnew b r' Hbw Hb) as (_ & _ & Hc & _). apply Hc, Hty.
Qed.

Lemma shaped_heap_step (contract : bool) (w w' : World) :
  shaped contract w w' -> exists linked, heap_step w w' linked.
Proof.
  intros [H | [H | (a & o & s & H & _)]].
  - exists None. apply touches_heap_step, H.
  - exists None. apply adds_heap_step, H.
  - exists (Some a). eapply succeeds_heap_step, H.
Qed.

Lemma ledger_sound_step (contract : bool) (w w' : World) :
  shaped contract w w' -> ledger_sound w -> ledger_sound w'.
Proof.
  intros Hshape Hsound o s x Hx.
  assert (Hkeep : forall y, relationships w !! (o, s) = Some y ->
            exists r, heap w' !! y = Some r /\ owner r = o /\ subject r = s).
  { intros y Hy. destruct (Hsound o s y Hy) as (r & Hr & Ho & Hs).
    destruct (shaped_heap_step _ _ _ Hshape) as (linked & Hold & _).
    destruct (Hold y r Hr) as (r' & Hr' & (_ & Ho' & Hs' & _) & _).
    exists r'. split; [exact Hr'|]. split; congruence. }
  destruct Hshape as [(a & g & _ & Hl & _) | [(f & Hh & _ & _ & Hl) | Hsucc]].
  - rewrite Hl in Hx. apply Hkeep, Hx.
  - destruct Hl as [Hl | Hl]; rewrite Hl in Hx; [apply Hkeep, Hx|].
    apply lookup_insert_Some in Hx. destruct Hx as [[Hk <-] | [_ Hx]].
    + injection Hk as <- <-. exists f. rewrite Hh.
      split; [apply lookup_constructed; reflexivity|]. split; reflexivity.
    + apply Hkeep, Hx.
  - destruct Hsucc as (a & o' & s' & (g & f & _ & Hh & _ & Ho & Hs & _ & _ & _ & Hl) & _).
    rewrite Hl in Hx. apply lookup_insert_Some in Hx.
    destruct Hx as [[Hk <-] | [_ Hx]].
    + injection Hk as <- <-. exists f. rewrite Hh.
      split; [apply lookup_constructed, length_alter|]. split; assumption.
    + apply Hkeep, Hx.
Qed.

Lemma current_unsucceeded_step (w w' : World) :
  shaped true w w' -> ledger_sound w -> current_unsucceeded w ->
  current_unsucceeded w'.
Proof.
  intros Hshape Hsound Hcur o s x r' Hx Hr'.
  assert (Hkeep : forall linked, heap_step w w' linked ->
            relationships w !! (o, s) = Some x -> linked <> Some x ->
            succeeded_by r' = None).
  { intros linked (Hold & _) Hy Hnl.
    destruct (Hsound o s x Hy) as (r & Hr & _).
    destruct (Hold x r Hr) as (r'' & Hr'' & _ & Hsucc).
    rewrite Hr' in Hr''. injection Hr'' as <-.
    rewrite Hsucc, decide_False by exact Hnl. apply (Hcur o s x r Hy Hr). }
  destruct Hshape as [Ht | [Ha | Hsucc]].
  - destruct Ht as (a & g & Hh & Hl & Hg).
    apply (Hkeep None); [apply touches_heap_step; exists a, g; auto | | discriminate].
    rewrite <- Hl. exact Hx.
  - pose proof (adds_heap_step _ _ Ha) as Hstep.
    destruct Ha as (f & Hh & Hnone & _ & Hl).
    destruct Hl as [Hl | Hl]; rewrite Hl in Hx;
      [apply (Hkeep None Hstep Hx); discriminate|].
    apply lookup_insert_Some in Hx. destruct Hx as [[_ <-] | [_ Hx]].
    + rewrite Hh, lookup_constructed in Hr' by reflexivity.
      injection Hr' as <-. exact Hnone.
    + apply (Hkeep None Hstep Hx). discriminate.
  - destruct Hsucc as (a & o' & s' & Hsucc & Hcontract).
    pose proof (succeeds_heap_step _ _ _ _ _ Hsucc) as Hstep.
    destruct Hsucc as (g & f & _ & Hh & _ & _ & _ & _ & Hnone & _ & Hl).
    rewrite Hl in Hx. apply lookup_insert_Some in Hx.
    destruct Hx as [[_ <-] | [Hne Hx]].
    + rewrite Hh, lookup_constructed in Hr' by apply length_alter.
      injection Hr' as <-. exact Hnone.
    + apply (Hkeep (Some a) Hstep Hx). intros Heq. injection Heq as ->.
      specialize (Hcontract eq_refl).
      destruct (Hsound _ _ _ Hcontract) as (r1 & Hr1 & Ho1 & Hs1).
      destruct (Hsound _ _ _ Hx) as (r2 & Hr2 & Ho2 & Hs2).
      rewrite Hr1 in Hr2. injection Hr2 as <-. apply Hne. congruence.
Qed.

Lemma pristine_invariant (w : World) : pristine w -> contract_invariant w.
Proof.
  intros [Hh Hl]. unfold contract_invariant, engine_invariant, chain_linked,
    acquaintances_complete, ledger_sound, current_unsucceeded.
  rewrite Hh, Hl. repeat split; intros;
    match goal with
    | H : [] !! _ = Some _ |- _ => rewrite lookup_nil in H; discriminate
    | H : ∅ !! _ = Some _ |- _ => rewrite lookup_empty in H; discriminate
    end.
Qed.

Lemma call_shaped (c : Call) (w : World) (contract : bool) :
  refs_exist w c ->
  (contract = true -> targets_current w c) ->
  acquaintances_complete w ->
  shaped contract w (run_call c w).
Proof.
  intros Hrefs Hcontract Hcomp.
  destruct (call_effect c w Hrefs Hcomp) as [H | [H | (a & o & s & H & Hcur)]].
  - left. exact H.
  - right. left. exact H.
  - right. right. exists a, o, s. split; [exact H|].
    intros Hc. apply Hcur, Hcontract, Hc.
Qed.

Lemma engine_invariant_step (c : Call) (w : World) :
  refs_exist w c -> engine_invariant w -> engine_invariant (run_call c w).
Proof.
  intros Hrefs (Hchain & Hcomp & Hsound).
  assert (Hshape : shaped false w (run_call c w)).
  { apply call_shaped; [exact Hrefs | discriminate | exact Hcomp]. }
  destruct (shaped_heap_step _ _ _ Hshape) as [linked Hstep].
  split; [eapply chain_linked_step; eassumption|].
  split; [eapply acquaintances_complete_step; eassumption|].
  eapply ledger_sound_step; eassumption.
Qed.

Lemma contract_invariant_step (c : Call) (w : World) :
  disciplined w c -> contract_invariant w -> contract_invariant (run_call c w).
Proof.
  intros [Hrefs Hcur] [Hinv Hun].
  split; [apply engine_invariant_step; assumption|].
  destruct Hinv as (_ & Hcomp & Hsound).
  apply (current_unsucceeded_step w); [|assumption|assumption].
  apply call_shaped; [exact Hrefs | intros _; exact Hcur | exact Hcomp].
Qed.

Lemma reaches_engine_invariant (w0 w : World) :
  engine_invariant w0 -> reaches refs_exist w0 w -> engine_invariant w.
Proof.
  intros H0 Hreach. induction Hreach as [|w c _ IH Hok]; [exact H0|].
  apply engine_invariant_step; assumption.
Qed.

Lemma reaches_contract_invariant (w0 w : World) :
  contract_invariant w0 -> reaches disciplined w0 w -> contract_invariant w.
Proof.
  intros H0 Hreach. induction Hreach as [|w c _ IH Hok]; [exact H0|].
  apply contract_invariant_step; assumption.
Qed.

(** What a call does to the heap, record by record; the record that gets a
    successor, if any, is the one the call acts on. *)
Lemma call_links (c : Call) (w : World) :
  refs_exist w c ->
  acquaintances_complete w ->
  exists linked,
    heap_step w (run_call c w) linked
    /\ forall a, linked = Some a -> target_of c = Some a.
Proof.
  intros Hrefs Hcomplete. destruct c as [k o s|self|d ppl]; cbn [run_call refs_exist] in *.
  - destruct (construct_effect k o s w Hrefs) as [Hadd | (a & Hk & Hsucc)].
    + exists None. split; [apply adds_heap_step, Hadd | discriminate].
    + exists (Some a). split; [eapply succeeds_heap_step, Hsucc|].
      intros a' [= <-]. exact Hk.
  - destruct (lookup_lt_is_Some_2 _ _ Hrefs) as [r Hr].
    destruct (progress_effect w self r Hr (Hcomplete self r Hr)) as [Htouch | Hsucc].
    + exists None. split; [apply touches_heap_step, Htouch | discriminate].
    + exists (Some self). split; [eapply succeeds_heap_step, Hsucc|].
      intros a' [= <-]. reflexivity.
  - exists None. split; [|discriminate].
    apply touches_heap_step. exists 0%nat, id.
    split; [symmetry; apply list_alter_id; reflexivity|].
    split; [reflexivity|]. intros r. unfold same_identity. tauto.
Qed.

(** A call that spares superseded records replaces no successor. *)
Lemma successor_spared_step (c : Call) (w : World) (R S : rid) (rec : Relationship) :
  careful w c -> acquaintances_complete w ->
  heap w !! R = Some rec -> succeeded_by rec = Some S ->
  exists rec', heap (run_call c w) !! R = Some rec' /\ succeeded_by rec' = Some S.
Proof.
  intros [Hrefs Hspare] Hcomp HR HS.
  destruct (call_links c w Hrefs Hcomp) as (linked & (Hold & _) & Htarget).
  destruct (Hold R rec HR) as (rec' & HR' & _ & Hsucc).
  exists rec'. split; [exact HR'|].
  rewrite Hsucc. destruct (decide (linked = Some R)) as [Hl|_]; [|exact HS].
  rewrite (Hspare R rec (Htarget R Hl) HR) in HS. discriminate.
Qed.

Lemma reaches_careful_weaken (w0 w : World) :
  reaches careful w0 w -> reaches refs_exist w0 w.
Proof.
  intros H. induction H as [|w c _ IH [Hrefs _]]; [constructor|].
  apply reaches_step; assumption.
Qed.

(** The ledger contract is one way to spare superseded records. *)
Lemma disciplined_careful (w : World) (c : Call) :
  contract_invariant w -> disciplined w c -> careful w c.
Proof.
  intros [(_ & _ & Hsound) Hun] [Hrefs Hcur]. split; [exact Hrefs|].
  intros a r Ha Hr. destruct c as [k o s|self|d ppl]; cbn [target_of] in Ha.
  - apply (Hun o s a r); [apply Hcur, Ha | exact Hr].
  - injection Ha as <-. destruct Hcur as (r0 & Hr0 & Hl).
    rewrite Hr in Hr0. injection Hr0 as <-.
    apply (Hun _ _ _ r Hl Hr).
  - discriminate.
Qed.

Lemma reaches_disciplined_careful (w0 w : World) :
  pristine w0 -> reaches disciplined w0 w -> reaches careful w0 w.
Proof.
  intros H0 H. induction H as [|w c Hw IH Hok]; [constructor|].
  apply reaches_step; [exact IH|].
  apply disciplined_careful; [|exact Hok].
  apply (reaches_contract_invariant w0 w (pristine_invariant w0 H0) Hw).
Qed.

(** C2 (amended). In every world reached from a pristine one, a record R
    whose [succeeded_by] is S has S's [preceded_by] equal to R.  When no call
    progresses, or hands over as predecessor, a record that already has a
    successor, a successor once assigned is never replaced: no record
    acquires two distinct successors. *)
Theorem chain_integrity (w0 : World) :
  pristine w0 ->
  (forall w, reaches refs_exist w0 w -> chain_linked w)
  /\ (forall w w2 R S S2 rec rec2,
        reaches careful w0 w ->
        reaches careful w w2 ->
        heap w !! R = Some rec -> succeeded_by rec = Some S ->
        heap w2 !! R = Some rec2 -> succeeded_by rec2 = Some S2 ->
        S2 = S).
Proof.
  intros H0. pose proof (pristine_invariant w0 H0) as [Hinv0 _]. split.
  - intros w Hreach. apply (reaches_engine_invariant w0 w Hinv0 Hreach).
  - intros w w2 R S S2 rec rec2 Hw Hw2 HR HS HR2 HS2.
    pose proof (reaches_engine_invariant w0 w Hinv0 (reaches_careful_weaken _ _ Hw))
      as Hiw.
    assert (Hkept : exists rec', heap w2 !! R = Some rec'
                                 /\ succeeded_by rec' = Some S).
    { clear HR2 HS2. induction Hw2 as [|w1 c Hw1 IH Hok].
      - exists rec. split; assumption.
      - destruct IH as (rec1 & HR1 & HS1).
        pose proof (reaches_engine_invariant w w1 Hiw (reaches_careful_weaken _ _ Hw1))
          as (_ & Hcomp & _).
        apply (successor_spared_step c w1 R S rec1); assumption. }
    destruct Hkept as (rec' & HR' & HS'). congruence.
Qed.

Lemma reaches_weaken (w0 w : World) :
  reaches disciplined w0 w -> reaches refs_exist w0 w.
Proof.
  intros H. induction H as [|w c _ IH [Hrefs _]]; [constructor|].
  apply reaches_step; assumption.
Qed.

Lemma pristine_empty_town : pristine empty_town.
Proof. split; reflexivity. Qed.

Lemma disciplined_progress_0 (n : nat) :
  (n < 8)%nat -> disciplined (town_after n) (CallProgress 0%nat).
Proof.
  intros Hn.
  do 8 (destruct n as [|n];
        [split; [vm_compute; lia | eexists; split; vm_compute; reflexivity]|]).
  lia.
Qed.

Lemma reaches_town_after (n : nat) :
  (n <= 8)%nat -> reaches disciplined empty_town (town_after n).
Proof.
  induction n as [|n IH]; intros Hn.
  - change (town_after 0) with
      (run_call (CallConstruct (NewAcquaintance None) 0%nat 3%nat) empty_town).
    apply reaches_step; [constructor|].
    split; [apply valid_ref_None | intros a Ha; discriminate].
  - change (town_after (S n)) with (run_call (CallProgress 0%nat) (town_after n)).
    apply reaches_step; [apply IH; lia | apply disciplined_progress_0; lia].
Qed.

(** C2 fails when a superseded record is not left alone.  In
    [town_of_friends], reached by nine calls, record 0 is succeeded by
    record 1.  One more [progress_relationship] on record 0 crosses the
    threshold again and assigns it the second successor 2; so does a
    Friendship constructed with record 0 as predecessor. *)
Lemma second_successor_counterexample :
  reaches refs_exist empty_town (run_call (CallProgress 0%nat) town_of_friends)
  /\ (exists rec rec',
        heap town_of_friends !! 0%nat = Some rec
        /\ succeeded_by rec = Some 1%nat
        /\ heap (run_call (CallProgress 0%nat) town_of_friends) !! 0%nat = Some rec'
        /\ succeeded_by rec' = Some 2%nat)
  /\ reaches refs_exist empty_town
       (run_call (CallConstruct (NewFriendship (Some 0%nat)) 0%nat 3%nat) town_of_friends)
  /\ exists rec',
       heap (run_call (CallConstruct (NewFriendship (Some 0%nat)) 0%nat 3%nat)
               town_of_friends) !! 0%nat = Some rec'
       /\ succeeded_by rec' = Some 2%nat.
Proof.
  split.
  { apply reaches_step.
    - apply reaches_weaken, (reaches_town_after 8). lia.
    - vm_compute. lia. }
  split.
  { eexists _, _.
    split; [vm_compute; reflexivity|]. split; [reflexivity|].
    split; [vm_compute; reflexivity|]. reflexivity. }
  split.
  { apply reaches_step.
    - apply reaches_weaken, (reaches_town_after 8). lia.
    - intros a [= <-]. vm_compute. lia. }
  eexists. split; [vm_compute; reflexivity|]. reflexivity.
Qed.

Lemma careful_progress_1 : careful town_of_friends (CallProgress 1%nat).
Proof.
  split; [vm_compute; lia|].
  intros a r [= <-] Hr. vm_compute in Hr. injection Hr as <-. reflexivity.
Qed.

(** In [town_of_friends] record 0 is succeeded by record 1, which names
    record 0 as its predecessor; when the Friendship 1 -- which has no
    successor yet -- is progressed and succeeded in turn, record 0 keeps its
    successor 1. *)
Lemma chain_integrity_witness :
  (exists srec,
     heap town_of_friends !! 1%nat = Some srec /\ preceded_by srec = Some 0%nat)
  /\ exists rec2 S2,
       heap (run_call (CallProgress 1%nat) town_of_friends) !! 0%nat = Some rec2
       /\ succeeded_by rec2 = Some S2
       /\ S2 = 1%nat.
Proof.
  destruct (chain_integrity empty_town pristine_empty_town) as [Hchain Honce].
  pose proof (reaches_disciplined_careful _ _ pristine_empty_town
                (reaches_town_after 8 (le_n 8))) as Hreach.
  split.
  - edestruct (Hchain town_of_friends (reaches_careful_weaken _ _ Hreach) 0%nat 1%nat)
      as (srec & Hs & Hp).
    + vm_compute. reflexivity.
    + reflexivity.
    + exists srec. split; assumption.
  - eexists _, _. split; [vm_compute; reflexivity|]. split; [reflexivity|].
    eapply (Honce town_of_friends (run_call (CallProgress 1%nat) town_of_friends)
              0%nat 1%nat).
    + exact Hreach.
    + apply reaches_step; [constructor | apply careful_progress_1].
    + vm_compute. reflexivity.
    + reflexivity.
    + vm_compute. reflexivity.
    + reflexivity.
Defined.

(** * Further properties of the engine *)

(** ** Repeated progression of an Acquaintance *)

(** One call on an Acquaintance, attribute by attribute: everything but
    [charge], [spark_increment], [spark] and [succeeded_by] stays, and so do
    the config and the persons. *)
Lemma Acquaintance_progress_next (w : World) (self : rid) (r : Relationship)
    (c ci si sp : Q) :
  acquaintance_at w self r c ci si sp ->
  let e := age_effect w r in
  let d := spark_decay_rate (config w) in
  exists r',
    acquaintance_at (progress self w) self r' (c + ci * e) ci (si * d) (sp + si * d * e)
    /\ owner r' = owner r /\ subject r' = subject r
    /\ preceded_by r' = preceded_by r
    /\ where_they_met r' = where_they_met r /\ when_they_met r' = when_they_met r
    /\ compatibility r' = compatibility r
    /\ relationship r' = relationship r
    /\ config (progress self w) = config w
    /\ people (progress self w) = people w
    /\ date (progress self w) = date w.
Proof.
  intros (Hr & Ht & Hc & Hci & Hsi & Hsp) e d. unfold progress.
  rewrite (progress_relationship_dispatch _ _ _ Hr), Ht.
  rewrite (Acquaintance_progress_outcome _ _ _ _ _ _ _ Hr Hci Hc Hsi Hsp).
  cbn [final_world]. fold e d.
  pose proof (charged_lookup self r (c + ci * e) w Hr) as Hr1.
  pose proof (transitioned_lookup self (set_charge (c + ci * e) r) ci (c + ci * e) _ Hr1)
    as Hr2.
  eexists. split.
  { split; [apply spark_progressed_lookup, Hr2|].
    destruct (crossing _ _); repeat split; assumption. }
  unfold spark_progressed, transitioned, charged, successor_built.
  destruct (crossing _ _); repeat split.
Qed.

Lemma Qabs_decays (a d : Q) :
  0 <= d -> d <= 1 -> Qabs (a * d) <= Qabs a /\ 0 <= a * d * a.
Proof.
  intros Hd0 Hd1. split.
  - rewrite Qabs_Qmult, (Qabs_pos d) by exact Hd0.
    pose proof (Qabs_nonneg a) as Ha. nra.
  - assert (E : a * d * a == (a * a) * d) by ring. rewrite E.
    apply Qmult_le_0_compat; [|exact Hd0].
    destruct (Qlt_le_dec a 0); nra.
Qed.

(** Along repeated calls the record stays an Acquaintance with all its
    attributes under the same config, and its spark increment stays within
    the magnitude, and on the side, of the one it started with. *)
Lemma progress_times_invariant (w : World) (self : rid) (r : Relationship)
    (c ci si sp : Q) (n : nat) :
  acquaintance_at w self r c ci si sp ->
  0 <= spark_decay_rate (config w) ->
  spark_decay_rate (config w) <= 1 ->
  exists r_n c_n si_n sp_n,
    acquaintance_at (progress_times n self w) self r_n c_n ci si_n sp_n
    /\ Qabs si_n <= Qabs si
    /\ 0 <= si_n * si
    /\ config (progress_times n self w) = config w.
Proof.
  intros Hat Hd0 Hd1. induction n as [|n IH].
  - exists r, c, si, sp. split; [exact Hat|].
    split; [apply Qle_refl|]. split; [|reflexivity].
    destruct (Qlt_le_dec si 0); nra.
  - destruct IH as (r_n & c_n & si_n & sp_n & Hn & Habs & Hsign & Hcfg).
    destruct (Acquaintance_progress_next _ _ _ _ _ _ _ Hn)
      as (r' & Hnext & _ & _ & _ & _ & _ & _ & _ & Hcfg' & _).
    rewrite Hcfg in Hnext.
    change (progress self (progress_times n self w))
      with (progress_times (S n) self w) in *.
    destruct (Qabs_decays si_n _ Hd0 Hd1) as [Hstep _].
    eexists _, _, _, _. split; [exact Hnext|].
    split; [eapply Qle_trans; eassumption|].
    split; [|congruence].
    assert (E : si_n * spark_decay_rate (config w) * si
                == (si_n * si) * spark_decay_rate (config w)) by ring.
    rewrite E. apply Qmult_le_0_compat; assumption.
Qed.

(** X2. With a decay rate between 0 and 1, a call of
    [progress_relationship] on an Acquaintance never makes [spark_increment]
    larger in magnitude and never flips its sign: it becomes the old one
    times the decay rate.  So after any number of calls the increment is
    within the magnitude, and on the side, of the one the record started
    with. *)
Theorem spark_increment_decays (w : World) (self : rid) (r : Relationship)
    (c ci si sp : Q) (n : nat) :
  acquaintance_at w self r c ci si sp ->
  0 <= spark_decay_rate (config w) ->
  spark_decay_rate (config w) <= 1 ->
  exists r_n r_next si_n si_next,
    heap (progress_times n self w) !! self = Some r_n
    /\ spark_increment r_n = Some si_n
    /\ heap (progress_times (S n) self w) !! self = Some r_next
    /\ spark_increment r_next = Some si_next
    /\ si_next = si_n * spark_decay_rate (config w)
    /\ Qabs si_next <= Qabs si_n
    /\ 0 <= si_next * si_n
    /\ Qabs si_n <= Qabs si
    /\ 0 <= si_n * si.
Proof.
  intros Hat Hd0 Hd1.
  destruct (progress_times_invariant w self r c ci si sp n Hat Hd0 Hd1)
    as (r_n & c_n & si_n & sp_n & Hn & Habs & Hsign & Hcfg).
  destruct (Acquaintance_progress_next _ _ _ _ _ _ _ Hn)
    as (r' & (Hr' & _ & _ & _ & Hsi' & _) & _).
  rewrite Hcfg in Hsi'.
  destruct (Qabs_decays si_n _ Hd0 Hd1) as [Hstep Hkeep].
  exists r_n, r', si_n, (si_n * spark_decay_rate (config w)).
  split; [apply Hn|]. split; [apply Hn|].
  split; [exact Hr'|]. split; [exact Hsi'|].
  split; [reflexivity|]. split; [exact Hstep|]. split; [exact Hkeep|].
  split; assumption.
Qed.

(** Persons 0 and 1 meet (spark increment 11/4, decay rate 9/10); the third
    call multiplies the increment left by the second by 9/10. *)
Lemma spark_increment_decays_witness :
  exists r_n r_next si_n si_next,
    heap (progress_times 2 0%nat (final_world (Acquaintance 0%nat 1%nat None empty_town)))
      !! 0%nat = Some r_n
    /\ spark_increment r_n = Some si_n
    /\ heap (progress_times 3 0%nat (final_world (Acquaintance 0%nat 1%nat None empty_town)))
         !! 0%nat = Some r_next
    /\ spark_increment r_next = Some si_next
    /\ si_next = si_n * (9 # 10)
    /\ Qabs si_next <= Qabs si_n
    /\ Qabs si_n <= 11 # 4.
Proof.
  edestruct (spark_increment_decays
               (final_world (Acquaintance 0%nat 1%nat None empty_town)) 0%nat)
    with (n := 2%nat)
    as (r_n & r_next & si_n & si_next & H1 & H2 & H3 & H4 & H5 & H6 & _ & H8 & _).
  - split; [vm_compute; reflexivity|]. repeat split; reflexivity.
  - vm_compute. discriminate.
  - vm_compute. discriminate.
  - exists r_n, r_next, si_n, si_next.
    split; [exact H1|]. split; [exact H2|]. split; [exact H3|]. split; [exact H4|].
    split; [exact H5|]. split; [exact H6|].
    eapply Qle_trans; [exact H8|]. vm_compute. discriminate.
Defined.

(** ** What one call of [progress_relationship] touches *)

Lemma transitioned_frame (self : rid) (r : Relationship) (ci c : Q) (w : World) :
  heap w !! self = Some r ->
  let w' := transitioned self r ci c w in
  (forall b rb, b <> self -> heap w !! b = Some rb -> heap w' !! b = Some rb)
  /\ relationships w'
     = match crossing (config w) c with
       | Some _ => <[(owner r, subject r) := length (heap w)]> (relationships w)
       | None => relationships w
       end
  /\ mental_models w' = mental_models w
  /\ config w' = config w /\ people w' = people w /\ date w' = date w.
Proof.
  intros Hr w'. subst w'. unfold transitioned.
  destruct (crossing (config w) c) as [t|]; [|repeat split; auto].
  unfold successor_built. py_simpl. repeat split.
  intros b rb Hne Hb. apply lookup_app_l_Some.
  rewrite list_lookup_alter_ne by congruence. exact Hb.
Qed.

Lemma charged_frame (self : rid) (v : Q) (w : World) (b : rid) (rb : Relationship) :
  b <> self -> heap w !! b = Some rb -> heap (charged self v w) !! b = Some rb.
Proof.
  intros Hne Hb. unfold charged. py_simpl.
  rewrite list_lookup_alter_ne by congruence. exact Hb.
Qed.

(** The world after one call, for a record of any class that carries what
    its method reads. *)
Lemma progress_frame (w : World) (self : rid) (r : Relationship) (c ci : Q) :
  heap w !! self = Some r ->
  progressable r c ci ->
  let w' := progress self w in
  (forall b rb, b <> self -> heap w !! b = Some rb -> heap w' !! b = Some rb)
  /\ relationships w'
     = match crossing (config w) (progressed_charge w r c ci) with
       | Some _ => <[(owner r, subject r) := length (heap w)]> (relationships w)
       | None => relationships w
       end
  /\ (type r <> acquaintance -> mental_models w' = mental_models w)
  /\ config w' = config w /\ people w' = people w /\ date w' = date w.
Proof.
  intros Hr (Hc & Hci & Hkin & Hspark) w'. subst w'. unfold progress, progressed_charge.
  rewrite (progress_relationship_dispatch _ _ _ Hr).
  destruct (type r) eqn:Ht; [congruence| | |].
  - destruct (Hspark eq_refl) as [[si Hsi] [sp Hsp]].
    rewrite (Acquaintance_progress_outcome _ _ _ _ _ _ _ Hr Hci Hc Hsi Hsp).
    cbn [final_world].
    set (c' := c + ci * age_effect w r).
    destruct (transitioned_frame self (set_charge c' r) ci c' (charged self c' w)
                (charged_lookup self r c' w Hr))
      as (Hfr & Hl & _ & Hcfg & Hppl & Hdt).
    rewrite charged_length in Hl.
    split.
    { intros b rb Hne Hb. rewrite spark_progressed_lookup_ne by congruence.
      apply Hfr; [exact Hne|]. apply charged_frame; assumption. }
    split; [exact Hl|]. split; [congruence|].
    split; [exact Hcfg|]. split; [exact Hppl | exact Hdt].
  - rewrite (Friendship_progress_outcome _ _ _ _ _ Hr Hci Hc). cbn [final_world].
    set (c' := c + ci).
    destruct (transitioned_frame self (set_charge c' r) ci c' (charged self c' w)
                (charged_lookup self r c' w Hr))
      as (Hfr & Hl & Hmm & Hcfg & Hppl & Hdt).
    rewrite charged_length in Hl.
    split.
    { intros b rb Hne Hb. apply Hfr; [exact Hne|]. apply charged_frame; assumption. }
    split; [exact Hl|]. split; [intros _; exact Hmm|].
    split; [exact Hcfg|]. split; [exact Hppl | exact Hdt].
  - rewrite (Enmity_progress_outcome _ _ _ _ _ Hr Hci Hc). cbn [final_world].
    set (c' := c + ci).
    destruct (transitioned_frame self (set_charge c' r) ci c' (charged self c' w)
                (charged_lookup self r c' w Hr))
      as (Hfr & Hl & Hmm & Hcfg & Hppl & Hdt).
    rewrite charged_length in Hl.
    split.
    { intros b rb Hne Hb. apply Hfr; [exact Hne|]. apply charged_frame; assumption. }
    split; [exact Hl|]. split; [intros _; exact Hmm|].
    split; [exact Hcfg|]. split; [exact Hppl | exact Hdt].
Qed.

Lemma constructed_lookup (w w' : World) (f : Relationship) :
  constructed w w' = [f] -> heap w' !! length (heap w) = Some f.
Proof.
  unfold constructed. intros H.
  rewrite <- (Nat.add_0_r (length (heap w))), <- lookup_drop, H. reflexivity.
Qed.

(** The world right after a call that crossed a threshold. *)
Lemma crossing_world (w : World) (self : rid) (r : Relationship) (c ci : Q)
    (t : RelType) :
  heap w !! self = Some r ->
  progressable r c ci ->
  crossing (config w) (progressed_charge w r c ci) = Some t ->
  exists w',
    progress_relationship self w = Returned w' tt
    /\ heap w' !! length (heap w)
       = Some (successor_record t (owner r) (subject r) self
                 (set_charge (progressed_charge w r c ci) r)
                 (Some ci) (Some (progressed_charge w r c ci)))
    /\ relationships w'
       = <[(owner r, subject r) := length (heap w)]> (relationships w)
    /\ length (heap w') = S (length (heap w))
    /\ config w' = config w.
Proof.
  intros Hr Hprog Hcross.
  destruct (progress_relationship_outcome w self r c ci Hr Hprog)
    as (w' & r' & Hret & _ & _ & _ & _ & Hnew & Hcfg).
  destruct (progress_frame w self r c ci Hr Hprog) as (_ & Hl & _).
  cbv zeta in Hnew, Hl. rewrite Hcross in Hnew, Hl. cbn [successors] in Hnew.
  unfold progress in Hl. rewrite Hret in Hl. cbn [final_world] in Hl.
  exists w'. split; [exact Hret|].
  split; [apply constructed_lookup, Hnew|].
  split; [exact Hl|]. split; [|exact Hcfg].
  unfold constructed in Hnew.
  assert (Hlen : length (drop (length (heap w)) (heap w')) = 1%nat)
    by (rewrite Hnew; reflexivity).
  rewrite length_drop in Hlen. lia.
Qed.

(** X3. When a call of [progress_relationship] crosses a threshold, the record
    it constructs is a Friendship or an Enmity (never an Acquaintance or a
    Kinship) for the same pair, with the progressed record as predecessor; it
    inherits [where_they_met], [when_they_met] and [charge_increment], starts
    from the charge just reached, carries no compatibility or spark
    attribute, has no successor, and is the pair's new ledger entry. *)
Theorem successor_inherits (w : World) (self : rid) (r : Relationship) (c ci : Q)
    (t : RelType) :
  heap w !! self = Some r ->
  progressable r c ci ->
  crossing (config w) (progressed_charge w r c ci) = Some t ->
  exists w' f,
    progress_relationship self w = Returned w' tt
    /\ heap w' !! length (heap w) = Some f
    /\ type f = t /\ (t = friendship \/ t = enmity)
    /\ owner f = owner r /\ subject f = subject r
    /\ preceded_by f = Some self /\ succeeded_by f = None
    /\ where_they_met f = where_they_met r
    /\ when_they_met f = when_they_met r
    /\ charge_increment f = Some ci
    /\ charge f = Some (progressed_charge w r c ci)
    /\ compatibility f = None /\ spark_increment f = None /\ spark f = None
    /\ relationships w' !! (owner r, subject r) = Some (length (heap w)).
Proof.
  intros Hr Hprog Hcross.
  destruct (crossing_world w self r c ci t Hr Hprog Hcross)
    as (w' & Hret & Hf & Hl & _).
  eexists w', _. split; [exact Hret|]. split; [exact Hf|].
  split; [reflexivity|]. split; [apply (crossing_kind _ _ _ Hcross)|].
  do 11 (split; [reflexivity|]).
  rewrite Hl. apply lookup_insert_eq.
Qed.

(** The eighth call on record 0 of the town: the Friendship at address 1
    inherits the meeting of record 0. *)
Lemma successor_inherits_witness :
  exists w' f,
    progress_relationship 0%nat (town_after 7) = Returned w' tt
    /\ heap w' !! 1%nat = Some f
    /\ type f = friendship
    /\ where_they_met f = Some 7%nat /\ when_they_met f = Some 3%nat
    /\ relationships w' !! (0%nat, 3%nat) = Some 1%nat.
Proof.
  edestruct (successor_inherits (town_after 7) 0%nat) with (t := friendship)
    as (w' & f & Hret & Hf & Ht & _ & _ & _ & _ & _ & Hwh & Hwn & _ & _ & _ & _ & _ & Hl).
  - vm_compute. reflexivity.
  - split; [reflexivity|]. split; [reflexivity|]. split; [discriminate|].
    intros _. split; eexists; reflexivity.
  - vm_compute. reflexivity.
  - exists w', f. split; [exact Hret|]. split; [exact Hf|]. split; [exact Ht|].
    split; [exact Hwh|]. split; [exact Hwn | exact Hl].
Defined.

(** X4. A call of [progress_relationship] changes no record other than the one
    it is called on, no ledger entry other than that of the record's pair,
    and nothing of config, persons or date; on a Friendship or an Enmity it
    leaves the mental models alone and changes nothing of the record but
    [charge] and, at a crossing, [succeeded_by]. *)
Theorem progress_touches_only_self (w : World) (self : rid) (r : Relationship)
    (c ci : Q) :
  heap w !! self = Some r ->
  progressable r c ci ->
  let w' := progress self w in
  let c' := progressed_charge w r c ci in
  (forall b rb, b <> self -> heap w !! b = Some rb -> heap w' !! b = Some rb)
  /\ (forall k, k <> (owner r, subject r) ->
        relationships w' !! k = relationships w !! k)
  /\ config w' = config w /\ people w' = people w /\ date w' = date w
  /\ (type r <> acquaintance ->
      mental_models w' = mental_models w
      /\ heap w' !! self
         = Some (superseded (length (heap w)) (crossing (config w) c')
                   (set_charge c' r))).
Proof.
  intros Hr Hprog w' c'.
  destruct (progress_frame w self r c ci Hr Hprog)
    as (Hfr & Hl & Hmm & Hcfg & Hppl & Hdt).
  split; [exact Hfr|].
  split.
  { intros k Hk. fold w' c' in Hl. rewrite Hl.
    destruct (crossing (config w) c'); [|reflexivity].
    apply lookup_insert_ne. congruence. }
  do 3 (split; [assumption|]).
  intros Hna. split; [apply Hmm, Hna|].
  destruct Hprog as (Hc & Hci & Hkin & _).
  subst w' c'. unfold progress, progressed_charge.
  rewrite (progress_relationship_dispatch _ _ _ Hr).
  destruct (type r) eqn:Ht; try congruence.
  - rewrite (Friendship_progress_outcome _ _ _ _ _ Hr Hci Hc). cbn [final_world].
    pose proof (transitioned_lookup self (set_charge (c + ci) r) ci (c + ci) _
                  (charged_lookup self r (c + ci) w Hr)) as H.
    rewrite charged_length in H. exact H.
  - rewrite (Enmity_progress_outcome _ _ _ _ _ Hr Hci Hc). cbn [final_world].
    pose proof (transitioned_lookup self (set_charge (c + ci) r) ci (c + ci) _
                  (charged_lookup self r (c + ci) w Hr)) as H.
    rewrite charged_length in H. exact H.
Qed.

(** In [town_of_friends] the Friendship 1 progresses: the superseded
    Acquaintance 0 stays as it was. *)
Lemma progress_touches_only_self_witness :
  exists r0,
    heap town_of_friends !! 0%nat = Some r0
    /\ heap (progress 1%nat town_of_friends) !! 0%nat = Some r0
    /\ mental_models (progress 1%nat town_of_friends) = mental_models town_of_friends.
Proof.
  edestruct (progress_touches_only_self town_of_friends 1%nat)
    as (Hfr & _ & _ & _ & _ & Hfriend).
  - vm_compute. reflexivity.
  - split; [reflexivity|]. split; [reflexivity|]. split; discriminate.
  - eexists. split; [vm_compute; reflexivity|].
    split; [apply Hfr; [discriminate | vm_compute; reflexivity]|].
    apply Hfriend. discriminate.
Defined.

(** ** Kinship as predecessor *)

Lemma Kinship_world (w : World) (o s : pid) (rel : string) :
  let w1 := final_world (Kinship o s rel w) in
  heap w1 = heap w ++ [Kinship_record o s rel]
  /\ length (heap w1) = S (length (heap w))
  /\ heap w1 !! length (heap w) = Some (Kinship_record o s rel)
  /\ config w1 = config w /\ people w1 = people w /\ date w1 = date w.
Proof.
  intros w1. subst w1. rewrite Kinship_returns. cbn [final_world heap].
  split; [reflexivity|].
  split; [rewrite length_app; simpl; lia|].
  split; [apply lookup_constructed; reflexivity|]. repeat split.
Qed.

(** X6. When two persons registered as kin meet, the Acquaintance constructed
    on the Kinship takes [where_they_met] and [when_they_met] from the
    owner's location and the date of the meeting; the Kinship is linked to
    it by [succeeded_by], keeps its label and its empty meeting attributes,
    and the ledger entry of the pair becomes the Acquaintance. *)
Theorem acquaintance_after_kinship (w : World) (o s : pid) (rel : string) :
  let k := length (heap w) in
  let w1 := final_world (Kinship o s rel w) in
  exists w2 kr a,
    Acquaintance o s (Some k) w1 = Returned w2 (S k)
    /\ heap w2 !! k = Some kr
    /\ type kr = kinship /\ relationship kr = Some rel
    /\ succeeded_by kr = Some (S k)
    /\ where_they_met kr = None /\ when_they_met kr = None
    /\ heap w2 !! S k = Some a
    /\ type a = acquaintance /\ preceded_by a = Some k /\ succeeded_by a = None
    /\ where_they_met a = Some (location (people w o))
    /\ when_they_met a = Some (date w)
    /\ relationships w2 !! (o, s) = Some (S k).
Proof.
  intros k w1.
  destruct (Kinship_world w o s rel) as (Hh & Hlen & Hk & Hcfg & Hppl & Hdt).
  fold w1 k in Hh, Hlen, Hk, Hcfg, Hppl, Hdt.
  assert (Hp : valid_ref w1 (Some k)) by (apply valid_ref_Some; lia).
  rewrite (Acquaintance_returns w1 o s (Some k) Hp), Hlen.
  eexists _, _, _. split; [reflexivity|]. cbn [heap relationships link].
  split; [apply lookup_linked, Hk|].
  do 5 (split; [reflexivity|]).
  split; [apply lookup_constructed; rewrite length_alter; exact Hlen|].
  do 3 (split; [reflexivity|]).
  split; [cbn; rewrite Hppl; reflexivity|].
  split; [cbn; rewrite Hdt; reflexivity|].
  apply lookup_insert_eq.
Qed.

(** X7. A Friendship or an Enmity constructed directly on a Kinship raises
    (the Kinship has no [charge_increment] to inherit), but only after the
    Kinship's [succeeded_by] and the pair's ledger entry have been set to the
    half-built record, which has no charge attributes;
    [progress_relationship] on that ledger entry raises in turn and changes
    nothing. *)
Theorem successor_on_kinship_half_built (w : World) (o s : pid) (rel : string)
    (t : RelType) :
  t = friendship \/ t = enmity ->
  let k := length (heap w) in
  let w1 := final_world (Kinship o s rel w) in
  exists w2 kr f,
    successor_init t o s (Some k) w1 = Raised w2
    /\ heap w2 !! k = Some kr
    /\ type kr = kinship /\ succeeded_by kr = Some (S k)
    /\ heap w2 !! S k = Some f
    /\ type f = t /\ preceded_by f = Some k
    /\ charge_increment f = None /\ charge f = None
    /\ relationships w2 !! (o, s) = Some (S k)
    /\ progress_relationship (S k) w2 = Raised w2.
Proof.
  intros Ht k w1.
  destruct (Kinship_world w o s rel) as (Hh & Hlen & Hk & _).
  fold w1 k in Hh, Hlen, Hk.
  rewrite (successor_init_outcome t o s k _ w1 Hk). cbn [charge_increment Kinship_record].
  unfold successor_built. rewrite Hlen.
  assert (Hf : (alter (set_succeeded_by (Some (S k))) k (heap w1)
                ++ [successor_record t o s k (Kinship_record o s rel) None None])
               !! S k
               = Some (successor_record t o s k (Kinship_record o s rel) None None)).
  { apply lookup_constructed. rewrite length_alter. exact Hlen. }
  eexists _, _, _. split; [reflexivity|]. cbn [heap relationships].
  split; [apply lookup_linked, Hk|].
  do 2 (split; [reflexivity|]).
  split; [exact Hf|].
  do 4 (split; [reflexivity|]).
  split; [apply lookup_insert_eq|].
  erewrite progress_relationship_dispatch by exact Hf.
  cbn [type successor_record].
  destruct Ht as [-> | ->].
  - eapply Friendship_progress_raises; [exact Hf | left; reflexivity].
  - eapply Enmity_progress_raises; [exact Hf | left; reflexivity].
Qed.

(** In [empty_town]: persons 3 and 0 are registered as sisters, then person 3
    is declared a friend of person 0 without their having met. *)
Lemma successor_on_kinship_half_built_witness :
  exists w2 f,
    Friendship 3%nat 0%nat (Some 0%nat) town_of_sisters = Raised w2
    /\ heap w2 !! 1%nat = Some f
    /\ charge f = None
    /\ relationships w2 !! (3%nat, 0%nat) = Some 1%nat
    /\ progress_relationship 1%nat w2 = Raised w2.
Proof.
  destruct (successor_on_kinship_half_built empty_town 3%nat 0%nat "sister" friendship)
    as (w2 & kr & f & Hraise & _ & _ & _ & Hf & _ & _ & _ & Hc & Hl & Hp).
  - left. reflexivity.
  - exists w2, f. repeat split; assumption.
Defined.

(** ** The history of a record *)

Lemma kept_refl (r : Relationship) : kept r r.
Proof. unfold kept. repeat split; auto. Qed.

Lemma kept_trans (r1 r2 r3 : Relationship) : kept r1 r2 -> kept r2 r3 -> kept r1 r3.
Proof.
  unfold kept.
  intros (A1 & A2 & A3 & A4 & A5 & A6 & A7 & A8 & A9 & A10 & A11 & A12)
         (B1 & B2 & B3 & B4 & B5 & B6 & B7 & B8 & B9 & B10 & B11 & B12).
  repeat split; try congruence; auto.
Qed.

Ltac solve_kept :=
  intros; unfold kept, compose; cbn; repeat split; try reflexivity; try tauto; eauto.

(** The heap after one call of [progress_relationship] on an existing
    record. *)
Lemma progress_heap (w : World) (self : rid) (r : Relationship) :
  heap w !! self = Some r ->
  (type r = acquaintance -> complete r) ->
  exists g news,
    heap (progress self w) = alter g self (heap w) ++ news
    /\ (forall r, kept r (g r))
    /\ (forall f, f ∈ news -> is_Some (charge f) /\ is_Some (charge_increment f)).
Proof.
  intros Hr Hcomplete.
  assert (Hlen : (self < length (heap w))%nat) by (eapply lookup_lt_Some, Hr).
  assert (Hsame : exists g news,
            heap w = alter g self (heap w) ++ news
            /\ (forall r, kept r (g r))
            /\ (forall f, f ∈ news -> is_Some (charge f) /\ is_Some (charge_increment f))).
  { exists id, []. split; [rewrite list_alter_id by reflexivity; rewrite app_nil_r; reflexivity|].
    split; [intros; apply kept_refl|].
    intros f Hf. apply elem_of_nil in Hf. destruct Hf. }
  assert (Hone : forall t o s a pr ci c f,
            f ∈ [successor_record t o s a pr (Some ci) (Some c)] ->
            is_Some (charge f) /\ is_Some (charge_increment f)).
  { intros t o s a pr ci c f Hf. apply list_elem_of_singleton in Hf. subst f.
    split; eexists; reflexivity. }
  assert (Hnil : forall f : Relationship, f ∈ [] ->
            is_Some (charge f) /\ is_Some (charge_increment f)).
  { intros f Hf. apply elem_of_nil in Hf. destruct Hf. }
  unfold progress. rewrite (progress_relationship_dispatch _ _ _ Hr).
  destruct (type r) eqn:Ht.
  - exact Hsame.
  - destruct (Hcomplete eq_refl) as ([c Hc] & [ci Hci] & [si Hsi] & [sp Hsp]).
    rewrite (Acquaintance_progress_outcome _ _ _ _ _ _ _ Hr Hci Hc Hsi Hsp).
    cbn [final_world]. unfold spark_progressed. py_simpl.
    destruct (transitioned_shape self r (c + ci * age_effect w r) ci w Hr)
      as [(_ & Hh & _) | (t & _ & Hh & _)]; rewrite Hh.
    + rewrite !alter_alter. eexists _, []. rewrite app_nil_r.
      split; [reflexivity|]. split; [solve_kept | exact Hnil].
    + rewrite !alter_app_l by py_len. rewrite !alter_alter.
      eexists _, _. split; [reflexivity|]. split; [solve_kept | apply Hone].
  - destruct (charge r) as [c|] eqn:Hc;
      [|rewrite (Friendship_progress_raises _ _ _ Hr (or_introl Hc)); exact Hsame].
    destruct (charge_increment r) as [ci|] eqn:Hci;
      [|rewrite (Friendship_progress_raises _ _ _ Hr (or_intror Hci)); exact Hsame].
    rewrite (Friendship_progress_outcome _ _ _ _ _ Hr Hci Hc). cbn [final_world].
    destruct (transitioned_shape self r (c + ci) ci w Hr)
      as [(_ & Hh & _) | (t & _ & Hh & _)]; rewrite Hh.
    + eexists _, []. rewrite app_nil_r.
      split; [reflexivity|]. split; [solve_kept | exact Hnil].
    + eexists _, _. split; [reflexivity|]. split; [solve_kept | apply Hone].
  - destruct (charge r) as [c|] eqn:Hc;
      [|rewrite (Enmity_progress_raises _ _ _ Hr (or_introl Hc)); exact Hsame].
    destruct (charge_increment r) as [ci|] eqn:Hci;
      [|rewrite (Enmity_progress_raises _ _ _ Hr (or_intror Hci)); exact Hsame].
    rewrite (Enmity_progress_outcome _ _ _ _ _ Hr Hci Hc). cbn [final_world].
    destruct (transitioned_shape self r (c + ci) ci w Hr)
      as [(_ & Hh & _) | (t & _ & Hh & _)]; rewrite Hh.
    + eexists _, []. rewrite app_nil_r.
      split; [reflexivity|]. split; [solve_kept | exact Hnil].
    + eexists _, _. split; [reflexivity|]. split; [solve_kept | apply Hone].
Qed.

(** The heap after any call: one record updated in its running attributes,
    and the records constructed appended. *)
Lemma call_heap (c : Call) (w : World) :
  refs_exist w c ->
  acquaintances_complete w ->
  exists g a news,
    heap (run_call c w) = alter g a (heap w) ++ news
    /\ (forall r, kept r (g r))
    /\ (engine_call w c ->
        forall f, f ∈ news -> type f <> kinship ->
          is_Some (charge f) /\ is_Some (charge_increment f)).
Proof.
  intros Hrefs Hcomp.
  destruct c as [k o s|self|d ppl]; cbn [run_call refs_exist] in *.
  - destruct k as [rel|p|p|p]; cbn [construct predecessor_of] in *.
    + rewrite Kinship_returns. cbn [final_world heap].
      exists id, 0%nat, [Kinship_record o s rel].
      split; [rewrite list_alter_id by reflexivity; reflexivity|].
      split; [intros; apply kept_refl|].
      intros _ f Hf Hnk. apply list_elem_of_singleton in Hf. subst f.
      exfalso. apply Hnk. reflexivity.
    + rewrite (Acquaintance_returns _ _ _ _ Hrefs). cbn [final_world heap].
      assert (Hnew : forall f, f ∈ [Acquaintance_record w o s p] -> type f <> kinship ->
                is_Some (charge f) /\ is_Some (charge_increment f)).
      { intros f Hf _. apply list_elem_of_singleton in Hf. subst f.
        split; eexists; reflexivity. }
      destruct p as [a|]; cbn [link].
      * eexists _, a, _. split; [reflexivity|].
        split; [solve_kept | intros _; exact Hnew].
      * exists id, 0%nat, [Acquaintance_record w o s None].
        split; [rewrite list_alter_id by reflexivity; reflexivity|].
        split; [intros; apply kept_refl | intros _; exact Hnew].
    + unfold Friendship. destruct p as [a|].
      * destruct (lookup_lt_is_Some_2 _ _ (Hrefs a eq_refl)) as [pr Hpr].
        rewrite (successor_init_outcome friendship o s a pr w Hpr).
        assert (Hshape : forall ci c,
          exists g a0 news,
            heap (successor_built friendship o s a pr ci c w) = alter g a0 (heap w) ++ news
            /\ (forall r, kept r (g r))
            /\ (engine_call w (CallConstruct (NewFriendship (Some a)) o s) ->
                forall f, f ∈ news -> type f <> kinship ->
                  is_Some (charge f) /\ is_Some (charge_increment f))).
        { intros ci c. eexists _, a, _. split; [reflexivity|].
          split; [solve_kept|]. intros [_ []]. }
        destruct (charge_increment pr); [destruct (charge pr)|]; apply Hshape.
      * rewrite successor_init_no_predecessor. cbn [final_world with_heap heap].
        exists id, 0%nat, [new_record friendship o s None].
        split; [rewrite list_alter_id by reflexivity; reflexivity|].
        split; [intros; apply kept_refl|]. intros [_ []].
    + unfold Enmity. destruct p as [a|].
      * destruct (lookup_lt_is_Some_2 _ _ (Hrefs a eq_refl)) as [pr Hpr].
        rewrite (successor_init_outcome enmity o s a pr w Hpr).
        assert (Hshape : forall ci c,
          exists g a0 news,
            heap (successor_built enmity o s a pr ci c w) = alter g a0 (heap w) ++ news
            /\ (forall r, kept r (g r))
            /\ (engine_call w (CallConstruct (NewEnmity (Some a)) o s) ->
                forall f, f ∈ news -> type f <> kinship ->
                  is_Some (charge f) /\ is_Some (charge_increment f))).
        { intros ci c. eexists _, a, _. split; [reflexivity|].
          split; [solve_kept|]. intros [_ []]. }
        destruct (charge_increment pr); [destruct (charge pr)|]; apply Hshape.
      * rewrite successor_init_no_predecessor. cbn [final_world with_heap heap].
        exists id, 0%nat, [new_record enmity o s None].
        split; [rewrite list_alter_id by reflexivity; reflexivity|].
        split; [intros; apply kept_refl|]. intros [_ []].
  - destruct (lookup_lt_is_Some_2 _ _ Hrefs) as [r Hr].
    destruct (progress_heap w self r Hr (Hcomp self r Hr)) as (g & news & Hh & Hg & Hnew).
    exists g, self, news. split; [exact Hh|]. split; [exact Hg|].
    intros _ f Hf _. apply Hnew, Hf.
  - exists id, 0%nat, []. cbn [elapse heap].
    split; [rewrite list_alter_id by reflexivity; rewrite app_nil_r; reflexivity|].
    split; [intros; apply kept_refl|].
    intros _ f Hf. apply elem_of_nil in Hf. destruct Hf.
Qed.

Lemma call_keeps (c : Call) (w : World) (a : rid) (r : Relationship) :
  refs_exist w c ->
  acquaintances_complete w ->
  heap w !! a = Some r ->
  exists r', heap (run_call c w) !! a = Some r' /\ kept r r'.
Proof.
  intros Hrefs Hcomp Ha.
  destruct (call_heap c w Hrefs Hcomp) as (g & a0 & news & Hh & Hg & _).
  rewrite Hh. eexists. split.
  - apply lookup_app_l_Some, lookup_alter_Some, Ha.
  - destruct (decide (a0 = a)); [apply Hg | apply kept_refl].
Qed.

Lemma call_new_charged (c : Call) (w : World) (b : rid) (f : Relationship) :
  engine_call w c ->
  acquaintances_complete w ->
  heap w !! b = None ->
  heap (run_call c w) !! b = Some f ->
  type f <> kinship ->
  is_Some (charge f) /\ is_Some (charge_increment f).
Proof.
  intros Hcall Hcomp Hnone Hb Hnk.
  destruct (call_heap c w (proj1 Hcall) Hcomp) as (g & a0 & news & Hh & _ & Hnew).
  rewrite Hh in Hb. apply lookup_app_Some in Hb.
  destruct Hb as [Hb | [_ Hb]].
  - rewrite (lookup_alter_None g a0 b _ Hnone) in Hb. discriminate.
  - apply (Hnew Hcall f); [|exact Hnk]. eapply list_elem_of_lookup_2, Hb.
Qed.

Lemma reaches_engine_weaken (w0 w : World) :
  reaches engine_call w0 w -> reaches refs_exist w0 w.
Proof.
  intros H. induction H as [|w c _ IH [Hrefs _]]; [constructor|].
  apply reaches_step; assumption.
Qed.

Lemma reaches_all_charged (w0 w : World) :
  pristine w0 -> reaches engine_call w0 w -> all_charged w.
Proof.
  intros H0 Hreach. induction Hreach as [|w c Hreach IH Hcall].
  - intros a r Ha. destruct H0 as [Hh _]. rewrite Hh, lookup_nil in Ha. discriminate.
  - pose proof (reaches_engine_invariant w0 w (proj1 (pristine_invariant w0 H0))
                  (reaches_engine_weaken _ _ Hreach)) as (_ & Hcomp & _).
    intros a r' Ha Hnk.
    destruct (heap w !! a) as [r|] eqn:Haw.
    + destruct (call_keeps c w a r (proj1 Hcall) Hcomp Haw)
        as (r'' & Ha' & (Ht & _ & _ & _ & _ & _ & _ & _ & Hci & Hc & _)).
      rewrite Ha in Ha'. injection Ha' as <-.
      destruct (IH a r Haw) as [Hc0 Hci0]; [congruence|].
      split; [apply Hc, Hc0 | rewrite Hci; exact Hci0].
    + apply (call_new_charged c w a r' Hcall Hcomp Haw Ha Hnk).
Qed.

(** X8. No call ever removes a record or rewrites its history: in any run
    from a pristine world a record, once constructed, keeps its type, owner,
    subject, relationship label, [preceded_by], [where_they_met],
    [when_they_met], [compatibility] and [charge_increment] through all later
    calls, and never loses a charge or spark attribute it has. *)
Theorem history_is_kept (w0 w w2 : World) (a : rid) (r : Relationship) :
  pristine w0 ->
  reaches refs_exist w0 w ->
  reaches refs_exist w w2 ->
  heap w !! a = Some r ->
  exists r2, heap w2 !! a = Some r2 /\ kept r r2.
Proof.
  intros H0 Hw Hw2 Ha.
  pose proof (reaches_engine_invariant w0 w (proj1 (pristine_invariant w0 H0)) Hw) as Hinv.
  induction Hw2 as [|w1 c Hw1 IH Hrefs].
  - exists r. split; [exact Ha | apply kept_refl].
  - destruct IH as (r1 & Ha1 & Hk1).
    pose proof (reaches_engine_invariant w w1 Hinv Hw1) as (_ & Hcomp & _).
    destruct (call_keeps c w1 a r1 Hrefs Hcomp Ha1) as (r2 & Ha2 & Hk2).
    exists r2. split; [exact Ha2 | eapply kept_trans; eassumption].
Qed.

Lemma engine_call_progress_0 (n : nat) :
  (n < 9)%nat -> engine_call (town_after n) (CallProgress 0%nat).
Proof.
  intros Hn.
  do 9 (destruct n as [|n]; [split; [vm_compute; lia | exact I]|]).
  lia.
Qed.

Lemma reaches_engine_town_after (n : nat) :
  (n <= 9)%nat -> reaches engine_call empty_town (town_after n).
Proof.
  induction n as [|n IH]; intros Hn.
  - change (town_after 0) with
      (run_call (CallConstruct (NewAcquaintance None) 0%nat 3%nat) empty_town).
    apply reaches_step; [constructor|].
    split; [apply valid_ref_None | exact I].
  - change (town_after (S n)) with (run_call (CallProgress 0%nat) (town_after n)).
    apply reaches_step; [apply IH; lia | apply engine_call_progress_0; lia].
Qed.

(** Record 0 as it was when the two had just met, and eight calls later. *)
Lemma history_is_kept_witness :
  exists r r2,
    heap town_of_acquaintances !! 0%nat = Some r
    /\ heap town_of_friends !! 0%nat = Some r2
    /\ where_they_met r2 = where_they_met r
    /\ charge_increment r2 = charge_increment r.
Proof.
  assert (Hrun : forall n, (n <= 8)%nat ->
            reaches refs_exist town_of_acquaintances (town_after n)).
  { induction n as [|n IH]; intros Hn; [constructor|].
    change (town_after (S n)) with (run_call (CallProgress 0%nat) (town_after n)).
    apply reaches_step; [apply IH; lia|].
    apply (engine_call_progress_0 n). lia. }
  edestruct (history_is_kept empty_town town_of_acquaintances town_of_friends 0%nat)
    as (r2 & Hr2 & Hk).
  - exact pristine_empty_town.
  - apply reaches_engine_weaken, (reaches_engine_town_after 0). lia.
  - apply (Hrun 8%nat). lia.
  - vm_compute. reflexivity.
  - eexists _, r2. split; [vm_compute; reflexivity|]. split; [exact Hr2|].
    destruct Hk as (_ & _ & _ & _ & _ & Hwh & _ & _ & Hci & _).
    split; [exact Hwh | exact Hci].
Defined.

(** X9. In a run from a pristine world in which Friendship and Enmity records
    are only constructed by [progress_relationship] itself,
    [progress_relationship] returns normally on every record that is not a
    Kinship: no attribute it reads is ever missing. *)
Theorem engine_never_raises (w0 w : World) (a : rid) (r : Relationship) :
  pristine w0 ->
  reaches engine_call w0 w ->
  heap w !! a = Some r ->
  type r <> kinship ->
  exists w', progress_relationship a w = Returned w' tt.
Proof.
  intros H0 Hreach Ha Hnk.
  pose proof (reaches_engine_invariant w0 w (proj1 (pristine_invariant w0 H0))
                (reaches_engine_weaken _ _ Hreach)) as (_ & Hcomp & _).
  destruct (reaches_all_charged w0 w H0 Hreach a r Ha Hnk) as [[c Hc] [ci Hci]].
  assert (Hprog : progressable r c ci).
  { split; [exact Hc|]. split; [exact Hci|]. split; [exact Hnk|].
    intros Ht. destruct (Hcomp a r Ha Ht) as (_ & _ & Hsi & Hsp). split; assumption. }
  destruct (progress_relationship_outcome w a r c ci Ha Hprog) as (w' & _ & Hret & _).
  exists w'. exact Hret.
Qed.

(** The stale Acquaintance 0 and the Friendship 1 of [town_of_friends] can
    both be progressed. *)
Lemma engine_never_raises_witness :
  (exists w', progress_relationship 0%nat town_of_friends = Returned w' tt)
  /\ (exists w', progress_relationship 1%nat town_of_friends = Returned w' tt).
Proof.
  split.
  - eapply (engine_never_raises empty_town town_of_friends 0%nat).
    + exact pristine_empty_town.
    + apply (reaches_engine_town_after 8). lia.
    + vm_compute. reflexivity.
    + discriminate.
  - eapply (engine_never_raises empty_town town_of_friends 1%nat).
    + exact pristine_empty_town.
    + apply (reaches_engine_town_after 8). lia.
    + vm_compute. reflexivity.
    + discriminate.
Defined.

(** ** Chains that keep growing *)

(** A call on a Friendship or an Enmity keeps the links there are. *)
Lemma chain_link_kept (t : RelType) (o s : pid) (x : rid) (k : nat) (ci : Q)
    (w : World) (i : nat) (a : rid) (r : Relationship) :
  heap w !! a = Some r ->
  type r <> acquaintance ->
  chain_link t o s x k ci w i ->
  chain_link t o s x k ci (progress a w) i.
Proof.
  intros Ha Hna (f & Hf & Ht & Ho & Hs & Hp & Hci).
  destruct (progress_heap w a r Ha) as (g & news & Hh & Hg & _); [tauto|].
  exists (if decide (a = (k + i)%nat) then g f else f).
  split; [rewrite Hh; apply lookup_app_l_Some, lookup_alter_Some, Hf|].
  destruct (decide (a = (k + i)%nat)); [|repeat split; assumption].
  destruct (Hg f) as (Ht' & Ho' & Hs' & _ & Hp' & _ & _ & _ & Hci' & _).
  repeat split; congruence.
Qed.

Lemma friend_above_next (w : World) (o s : pid) (x : rid) (c ci : Q) :
  friend_above w o s x c ci ->
  0 <= ci ->
  exists r,
    heap w !! x = Some r /\ type r <> acquaintance
    /\ progress_current o s w = progress x w
    /\ friend_above (progress x w) o s (length (heap w)) (c + ci) ci
    /\ length (heap (progress x w)) = S (length (heap w))
    /\ config (progress x w) = config w
    /\ exists f, heap (progress x w) !! length (heap w) = Some f
                 /\ type f = friendship /\ owner f = o /\ subject f = s
                 /\ preceded_by f = Some x /\ charge_increment f = Some ci.
Proof.
  intros (Hl & r & Hr & Hty & Ho & Hs & Hc & Hci & Hthr) Hci0.
  exists r. split; [exact Hr|].
  split; [destruct Hty as [E|E]; rewrite E; discriminate|].
  split; [unfold progress_current; rewrite Hl; reflexivity|].
  assert (Hprog : progressable r c ci).
  { split; [exact Hc|]. split; [exact Hci|].
    split; destruct Hty as [E|E]; rewrite E; discriminate. }
  assert (Hpc : progressed_charge w r c ci = c + ci).
  { unfold progressed_charge. destruct Hty as [E|E]; rewrite E; reflexivity. }
  assert (Hcross : crossing (config w) (progressed_charge w r c ci) = Some friendship).
  { rewrite Hpc. apply crossing_friendship. lra. }
  destruct (crossing_world w x r c ci friendship Hr Hprog Hcross)
    as (w' & Hret & Hf & Hl' & Hlen & Hcfg).
  unfold progress. rewrite Hret. cbn [final_world].
  rewrite Hpc in Hf. rewrite Ho, Hs in Hl', Hf.
  assert (Hin : relationships w' !! (o, s) = Some (length (heap w)))
    by (rewrite Hl'; apply lookup_insert_eq).
  split.
  { split; [exact Hin|]. eexists. split; [exact Hf|].
    split; [left; reflexivity|]. do 4 (split; [reflexivity|]). rewrite Hcfg. lra. }
  split; [exact Hlen|]. split; [exact Hcfg|].
  eexists. split; [exact Hf|]. repeat split.
Qed.

(** X5. Once the pair's current record is a Friendship (or an Enmity) whose
    charge is above the friendship threshold and whose increment is not
    negative, every call of [progress_relationship] on the current ledger
    entry constructs one more Friendship: after [n] such calls the heap holds
    [n] more records, each of them a Friendship of the pair preceded by the
    one before it, and the current entry is the newest one, its charge not
    below the charge at the start. *)
Theorem friendship_chain_grows (w : World) (o s : pid) (x : rid) (c ci : Q) (n : nat) :
  friend_above w o s x c ci ->
  0 <= ci ->
  let w_n := Nat.iter n (progress_current o s) w in
  let k := length (heap w) in
  length (heap w_n) = (k + n)%nat
  /\ (forall i, (i < n)%nat -> chain_link friendship o s x k ci w_n i)
  /\ exists x_n c_n,
       friend_above w_n o s x_n c_n ci
       /\ c <= c_n
       /\ ((0 < n)%nat -> x_n = (k + n - 1)%nat).
Proof.
  intros Habove Hci0 w_n k. subst w_n.
  induction n as [|n IH].
  - split; [simpl; lia|]. split; [intros i Hi; lia|].
    exists x, c. split; [exact Habove|]. split; [apply Qle_refl | lia].
  - destruct IH as (Hlen & Hlinks & x_n & c_n & Hn & Hc & Hx).
    rewrite !Nat.iter_succ.
    destruct (friend_above_next _ o s x_n c_n ci Hn Hci0)
      as (r & Hr & Hna & -> & Hnext & Hlen' & _ & f & Hf & Ht & Ho & Hs & Hp & Hci).
    split; [rewrite Hlen'; lia|].
    split.
    + intros i Hi. destruct (decide (i = n)) as [->|Hne].
      * exists f. rewrite Hlen in Hf. split; [exact Hf|].
        do 3 (split; [assumption|]). split; [|exact Hci].
        rewrite Hp. f_equal. destruct n as [|m]; [|rewrite Hx by lia; lia].
        destruct Habove as [Hl _]. destruct Hn as [Hl' _].
        simpl in Hl'. congruence.
      * apply (chain_link_kept _ _ _ _ _ _ _ _ _ r Hr Hna). apply Hlinks. lia.
    + eexists _, _. split; [exact Hnext|]. split; [lra|].
      intros _. rewrite Hlen. lia.
Qed.

(** In [town_of_friends] the Friendship 1 has charge 11/2 > 5 and increment
    3/2: three more calls on the current entry, three more records, the last
    of them a Friendship preceded by record 3. *)
Lemma friendship_chain_grows_witness :
  length (heap (Nat.iter 3 (progress_current 0%nat 3%nat) town_of_friends)) = 5%nat
  /\ exists ci,
       chain_link friendship 0%nat 3%nat 1%nat 2 ci
         (Nat.iter 3 (progress_current 0%nat 3%nat) town_of_friends) 2
       /\ ci == 3 # 2.
Proof.
  edestruct (friendship_chain_grows town_of_friends 0%nat 3%nat 1%nat) with (n := 3%nat)
    as (Hlen & Hlinks & _).
  - split; [vm_compute; reflexivity|].
    eexists. split; [vm_compute; reflexivity|].
    split; [left; reflexivity|]. do 4 (split; [reflexivity|]).
    vm_compute. reflexivity.
  - vm_compute. discriminate.
  - split; [exact Hlen|]. eexists.
    split; [apply (Hlinks 2%nat); lia | vm_compute; reflexivity].
Defined.

Lemma enemy_below_next (w : World) (o s : pid) (x : rid) (c ci : Q) :
  enemy_below w o s x c ci ->
  ci <= 0 ->
  exists r,
    heap w !! x = Some r /\ type r <> acquaintance
    /\ progress_current o s w = progress x w
    /\ enemy_below (progress x w) o s (length (heap w)) (c + ci) ci
    /\ length (heap (progress x w)) = S (length (heap w))
    /\ config (progress x w) = config w
    /\ exists f, heap (progress x w) !! length (heap w) = Some f
                 /\ type f = enmity /\ owner f = o /\ subject f = s
                 /\ preceded_by f = Some x /\ charge_increment f = Some ci.
Proof.
  intros (Hl & r & Hr & Hty & Ho & Hs & Hc & Hci & Hthr & Hnf) Hci0.
  exists r. split; [exact Hr|].
  split; [destruct Hty as [E|E]; rewrite E; discriminate|].
  split; [unfold progress_current; rewrite Hl; reflexivity|].
  assert (Hprog : progressable r c ci).
  { split; [exact Hc|]. split; [exact Hci|].
    split; destruct Hty as [E|E]; rewrite E; discriminate. }
  assert (Hpc : progressed_charge w r c ci = c + ci).
  { unfold progressed_charge. destruct Hty as [E|E]; rewrite E; reflexivity. }
  assert (Hcross : crossing (config w) (progressed_charge w r c ci) = Some enmity).
  { rewrite Hpc. apply crossing_enmity. split; lra. }
  destruct (crossing_world w x r c ci enmity Hr Hprog Hcross)
    as (w' & Hret & Hf & Hl' & Hlen & Hcfg).
  unfold progress. rewrite Hret. cbn [final_world].
  rewrite Hpc in Hf. rewrite Ho, Hs in Hl', Hf.
  assert (Hin : relationships w' !! (o, s) = Some (length (heap w)))
    by (rewrite Hl'; apply lookup_insert_eq).
  split.
  { split; [exact Hin|]. eexists. split; [exact Hf|].
    split; [right; reflexivity|]. do 4 (split; [reflexivity|]).
    rewrite Hcfg. split; lra. }
  split; [exact Hlen|]. split; [exact Hcfg|].
  eexists. split; [exact Hf|]. repeat split.
Qed.

(** X12. Likewise, once the pair's current record is a Friendship or an
    Enmity whose charge is below the enmity threshold (and not above the
    friendship threshold, which is tested first) and whose increment is not
    positive, every call on the current ledger entry constructs one more
    Enmity: [n] calls, [n] more records, each an Enmity of the pair preceded
    by the one before it, the charge of the newest not above the charge at
    the start. *)
Theorem enmity_chain_grows (w : World) (o s : pid) (x : rid) (c ci : Q) (n : nat) :
  enemy_below w o s x c ci ->
  ci <= 0 ->
  let w_n := Nat.iter n (progress_current o s) w in
  let k := length (heap w) in
  length (heap w_n) = (k + n)%nat
  /\ (forall i, (i < n)%nat -> chain_link enmity o s x k ci w_n i)
  /\ exists x_n c_n,
       enemy_below w_n o s x_n c_n ci
       /\ c_n <= c
       /\ ((0 < n)%nat -> x_n = (k + n - 1)%nat).
Proof.
  intros Hbelow Hci0 w_n k. subst w_n.
  induction n as [|n IH].
  - split; [simpl; lia|]. split; [intros i Hi; lia|].
    exists x, c. split; [exact Hbelow|]. split; [apply Qle_refl | lia].
  - destruct IH as (Hlen & Hlinks & x_n & c_n & Hn & Hc & Hx).
    rewrite !Nat.iter_succ.
    destruct (enemy_below_next _ o s x_n c_n ci Hn Hci0)
      as (r & Hr & Hna & -> & Hnext & Hlen' & _ & f & Hf & Ht & Ho & Hs & Hp & Hci).
    split; [rewrite Hlen'; lia|].
    split.
    + intros i Hi. destruct (decide (i = n)) as [->|Hne].
      * exists f. rewrite Hlen in Hf. split; [exact Hf|].
        do 3 (split; [assumption|]). split; [|exact Hci].
        rewrite Hp. f_equal. destruct n as [|m]; [|rewrite Hx by lia; lia].
        destruct Hbelow as [Hl _]. destruct Hn as [Hl' _].
        simpl in Hl'. congruence.
      * apply (chain_link_kept _ _ _ _ _ _ _ _ _ r Hr Hna). apply Hlinks. lia.
    + eexists _, _. split; [exact Hnext|]. split; [lra|].
      intros _. rewrite Hlen. lia.
Qed.

(** In [town_of_enemies] the Enmity 1 has charge -6 < -5 and increment -1:
    two more calls on the current entry, two more records, the last of them
    an Enmity preceded by record 2. *)
Lemma enmity_chain_grows_witness :
  length (heap (Nat.iter 2 (progress_current 0%nat 1%nat) town_of_enemies)) = 4%nat
  /\ exists ci,
       chain_link enmity 0%nat 1%nat 1%nat 2 ci
         (Nat.iter 2 (progress_current 0%nat 1%nat) town_of_enemies) 1
       /\ ci == -1.
Proof.
  edestruct (enmity_chain_grows town_of_enemies 0%nat 1%nat 1%nat) with (n := 2%nat)
    as (Hlen & Hlinks & _).
  - split; [vm_compute; reflexivity|].
    eexists. split; [vm_compute; reflexivity|].
    split; [right; reflexivity|]. do 4 (split; [reflexivity|]).
    split; vm_compute; [reflexivity | discriminate].
  - vm_compute. discriminate.
  - split; [exact Hlen|]. eexists.
    split; [apply (Hlinks 1%nat); lia | vm_compute; reflexivity].
Defined.

(** ** The ledger along a run *)

(** X10. In any run from a pristine world every ledger entry denotes an
    existing record of its own pair (the entry of (o, s) has owner o and
    subject s); and when callers progress, and hand over as predecessor, only
    current ledger entries, the record an entry denotes has no successor:
    the ledger always points at the end of the pair's chain. *)
Theorem ledger_points_at_chain_end (w0 : World) :
  pristine w0 ->
  (forall w o s x,
     reaches refs_exist w0 w ->
     relationships w !! (o, s) = Some x ->
     exists r, heap w !! x = Some r /\ owner r = o /\ subject r = s)
  /\ (forall w o s x r,
        reaches disciplined w0 w ->
        relationships w !! (o, s) = Some x ->
        heap w !! x = Some r ->
        succeeded_by r = None).
Proof.
  intros H0. pose proof (pristine_invariant w0 H0) as Hinv0. split.
  - intros w o s x Hreach Hx.
    destruct (reaches_engine_invariant w0 w (proj1 Hinv0) Hreach) as (_ & _ & Hsound).
    apply (Hsound o s x Hx).
  - intros w o s x r Hreach Hx Hr.
    destruct (reaches_contract_invariant w0 w Hinv0 Hreach) as [_ Hun].
    apply (Hun o s x r Hx Hr).
Qed.

(** In [town_of_friends] the entry of the pair (0, 3) is the Friendship 1,
    which has no successor. *)
Lemma ledger_points_at_chain_end_witness :
  exists r,
    relationships town_of_friends !! (0%nat, 3%nat) = Some 1%nat
    /\ heap town_of_friends !! 1%nat = Some r
    /\ owner r = 0%nat /\ subject r = 3%nat
    /\ succeeded_by r = None.
Proof.
  destruct (ledger_points_at_chain_end empty_town pristine_empty_town) as [Hsound Hend].
  assert (Hl : relationships town_of_friends !! (0%nat, 3%nat) = Some 1%nat)
    by (vm_compute; reflexivity).
  destruct (Hsound town_of_friends 0%nat 3%nat 1%nat
              (reaches_weaken _ _ (reaches_town_after 8 (le_n 8))) Hl)
    as (r & Hr & Ho & Hs).
  exists r. split; [exact Hl|]. split; [exact Hr|]. split; [exact Ho|].
  split; [exact Hs|].
  apply (Hend town_of_friends 0%nat 3%nat 1%nat r (reaches_town_after 8 (le_n 8)) Hl Hr).
Defined.

(** X11. A call never deletes a ledger entry and rewrites at most one: either
    the ledger is unchanged, or exactly the entry of one pair now denotes the
    record just constructed for that pair. *)
Theorem ledger_changes_one_entry (w0 w : World) (c : Call) :
  pristine w0 ->
  reaches refs_exist w0 w ->
  refs_exist w c ->
  relationships (run_call c w) = relationships w
  \/ exists o s f,
       relationships (run_call c w)
       = <[(o, s) := length (heap w)]> (relationships w)
       /\ heap w !! length (heap w) = None
       /\ heap (run_call c w) !! length (heap w) = Some f
       /\ owner f = o /\ subject f = s.
Proof.
  intros H0 Hreach Hrefs.
  destruct (reaches_engine_invariant w0 w (proj1 (pristine_invariant w0 H0)) Hreach)
    as (_ & Hcomp & _).
  assert (Hshape : shaped false w (run_call c w)).
  { apply call_shaped; [exact Hrefs | discriminate | exact Hcomp]. }
  destruct Hshape as [(a & g & _ & Hl & _) | [(f & Hh & _ & _ & Hl) | Hsucc]].
  - left. exact Hl.
  - destruct Hl as [Hl | Hl]; [left; exact Hl|].
    right. exists (owner f), (subject f), f.
    split; [exact Hl|]. split; [apply fresh_address|].
    split; [rewrite Hh; apply lookup_constructed; reflexivity|]. split; reflexivity.
  - destruct Hsucc as (a & o & s & (g & f & _ & Hh & _ & Ho & Hs & _ & _ & _ & Hl) & _).
    right. exists o, s, f.
    split; [exact Hl|]. split; [apply fresh_address|].
    split; [rewrite Hh; apply lookup_constructed, length_alter|].
    split; assumption.
Qed.

(** The call that takes [town_after 7] to [town_of_friends] rewrites the
    entry of the pair (0, 3). *)
Lemma ledger_changes_one_entry_witness :
  relationships (run_call (CallProgress 0%nat) (town_after 7))
  = relationships (town_after 7)
  \/ exists o s f,
       relationships (run_call (CallProgress 0%nat) (town_after 7))
       = <[(o, s) := length (heap (town_after 7))]> (relationships (town_after 7))
       /\ heap (town_after 7) !! length (heap (town_after 7)) = None
       /\ heap (run_call (CallProgress 0%nat) (town_after 7))
            !! length (heap (town_after 7)) = Some f
       /\ owner f = o /\ subject f = s.
Proof.
  apply (ledger_changes_one_entry empty_town (town_after 7) (CallProgress 0%nat)).
  - exact pristine_empty_town.
  - apply reaches_weaken, (reaches_town_after 7). lia.
  - vm_compute. lia.
Defined.

(** ** More on the numbers fixed at creation *)

Lemma Qabs_diff_sym (x y : Q) : Qabs (x - y) == Qabs (y - x).
Proof.
  assert (E : x - y == - (y - x)) by ring. rewrite E. apply Qabs_opp.
Qed.

Lemma compatibility_sym (a b : Person) :
  _init_get_compatibility a b == _init_get_compatibility b a.
Proof.
  unfold _init_get_compatibility. cbv zeta.
  rewrite (Qabs_diff_sym (openness_to_experience (personality a))),
          (Qabs_diff_sym (extroversion (personality a))),
          (Qabs_diff_sym (agreeableness (personality a))).
  reflexivity.
Qed.

(** X13. Compatibility is mutual: when two people meet and each forms an
    Acquaintance of the other, the two records store the same
    compatibility, whatever the two personalities are. *)
Theorem compatibility_is_mutual (w : World) (o s : pid) :
  let n := length (heap w) in
  exists w1 w2 a b ca cb,
    Acquaintance o s None w = Returned w1 n
    /\ Acquaintance s o None w1 = Returned w2 (S n)
    /\ heap w2 !! n = Some a /\ heap w2 !! S n = Some b
    /\ owner a = o /\ subject a = s /\ owner b = s /\ subject b = o
    /\ compatibility a = Some ca /\ compatibility b = Some cb
    /\ ca == cb.
Proof.
  intros n.
  pose proof (Acquaintance_returns w o s None (valid_ref_None w)) as H1.
  cbn [link] in H1.
  eexists _, _, _, _, _, _. split; [exact H1|].
  split.
  { rewrite (Acquaintance_returns _ s o None (valid_ref_None _)).
    cbn [heap link]. rewrite length_app. cbn [length].
    replace (length (heap w) + 1)%nat with (S n) by (unfold n; lia). reflexivity. }
  cbn [heap].
  split; [apply lookup_app_l_Some, lookup_constructed; reflexivity|].
  split; [apply lookup_constructed; rewrite length_app; simpl; unfold n; lia|].
  do 6 (split; [reflexivity|]).
  cbn [people]. apply compatibility_sym.
Qed.

(** * The socket handlers of server.py *)

Lemma session_of_emit_with_count (ev : string) (d : Server.Data) (s : gmap string Z) :
  Server.session_of (Server.emit_with_count ev d s) = s.
Proof.
  unfold Server.emit_with_count. destruct (s !! "receive_count"); reflexivity.
Qed.

Lemma session_of_on (m : Server.Message) (s : gmap string Z) :
  Server.session_of (Server.on m s)
  = if Server.counts m then Server.count_message s else s.
Proof.
  destruct m; cbn [Server.on Server.counts];
    unfold Server.send_random_person, Server.send_city_name, Server.send_lot_json,
      Server.send_street_json, Server.ready;
    rewrite ?session_of_emit_with_count; reflexivity.
Qed.

Lemma counted_cons (m : Server.Message) (ms : list Server.Message) :
  Server.counted (m :: ms)
  = ((if Server.counts m then 1 else 0) + Server.counted ms)%Z.
Proof.
  unfold Server.counted. rewrite filter_cons.
  destruct (Server.counts m) eqn:E.
  - rewrite decide_True by exact I. cbn [length]. lia.
  - rewrite decide_False by (intros []). lia.
Qed.

Lemma counted_nonneg (ms : list Server.Message) : (0 <= Server.counted ms)%Z.
Proof. unfold Server.counted. lia. Qed.

(** The counter after the messages [ms]: missing as long as nothing was
    counted, afterwards the old value (0 when missing) plus the number of
    counted messages. *)
Lemma receive_count_after (ms : list Server.Message) (s : gmap string Z) :
  Server.session_after ms s !! "receive_count"
  = if decide (Server.counted ms = 0%Z) then s !! "receive_count"
    else Some (default 0%Z (s !! "receive_count") + Server.counted ms)%Z.
Proof.
  revert s. induction ms as [|m ms IH]; intros s.
  - reflexivity.
  - change (Server.session_after (m :: ms) s)
      with (Server.session_after ms (Server.session_of (Server.on m s))).
    rewrite IH, session_of_on, counted_cons.
    pose proof (counted_nonneg ms) as Hnn.
    destruct (Server.counts m).
    + unfold Server.count_message. rewrite lookup_insert_eq. cbn [default].
      rewrite (decide_False (P := (1 + Server.counted ms)%Z = 0%Z)) by lia.
      destruct (decide (Server.counted ms = 0%Z)) as [E|E];
        apply (f_equal Some); unfold id;
        generalize (default 0%Z (s !! "receive_count")); intros z; lia.
    + destruct (decide (Server.counted ms = 0%Z)) as [E|E].
      * rewrite decide_True by lia. reflexivity.
      * rewrite decide_False by lia. reflexivity.
Qed.

(** X15. In a session that starts empty, the reply to a counted message
    ([get_random_person] or [get_city_name]) carries the number of counted
    messages received so far, itself included, whatever other messages came
    in between; and no handler ever touches another key of the session. *)
Theorem counted_replies_are_numbered (ms : list Server.Message) (m : Server.Message)
    (s : gmap string Z) :
  (Server.counts m = true ->
   exists e,
     Server.on m (Server.session_after ms ∅)
     = Server.Emitted (Server.count_message (Server.session_after ms ∅)) e
     /\ Server.count e = (Server.counted ms + 1)%Z
     /\ Server.event e = "return info")
  /\ (forall k, k <> "receive_count" -> Server.session_after ms s !! k = s !! k).
Proof.
  split.
  - intros Hm.
    assert (Hd : default 0%Z (Server.session_after ms ∅ !! "receive_count")
                 = Server.counted ms).
    { rewrite receive_count_after, lookup_empty.
      destruct (decide (Server.counted ms = 0%Z)) as [E|E]; cbn; lia. }
    destruct m; try discriminate;
      cbn [Server.on]; unfold Server.send_random_person, Server.send_city_name,
        Server.emit_with_count, Server.count_message;
      rewrite lookup_insert_eq, Hd; eexists; repeat split.
  - intros k Hk. revert s. induction ms as [|m' ms IH]; intros s; [reflexivity|].
    change (Server.session_after (m' :: ms) s)
      with (Server.session_after ms (Server.session_of (Server.on m' s))).
    rewrite IH, session_of_on.
    destruct (Server.counts m'); [|reflexivity].
    unfold Server.count_message. apply lookup_insert_ne. congruence.
Qed.

(** X16. [get_lot_json] and [get_street_json] read [session['receive_count']]
    without a default: in a session that starts empty they raise [KeyError]
    exactly as long as no counted message has been handled; afterwards they
    report the current count and leave the session as it is. *)
Theorem json_handlers_need_a_count (ms : list Server.Message) (m : Server.Message) :
  m = Server.get_lot_json \/ m = Server.get_street_json ->
  let s := Server.session_after ms ∅ in
  (Server.counted ms = 0%Z -> Server.on m s = Server.KeyError s)
  /\ (Server.counted ms <> 0%Z ->
      exists e, Server.on m s = Server.Emitted s e /\ Server.count e = Server.counted ms)
  /\ (Server.on m s = Server.KeyError s -> Server.counted ms = 0%Z).
Proof.
  intros Hm s.
  pose proof (receive_count_after ms ∅) as Hrc. fold s in Hrc.
  rewrite lookup_empty in Hrc. cbn [default] in Hrc.
  assert (Hon : Server.on m s
                = match s !! "receive_count" with
                  | Some n => Server.Emitted s {| Server.event := Server.event_of m;
                                           Server.data := Server.data_of m;
                                           Server.count := n |}
                  | None => Server.KeyError s
                  end).
  { destruct Hm as [-> | ->]; reflexivity. }
  rewrite Hon, Hrc.
  destruct (decide (Server.counted ms = 0%Z)) as [E|E].
  - split; [reflexivity|]. split; [intros H; contradiction | intros _; exact E].
  - split; [intros H; contradiction|].
    split; [intros _; eexists; split; [reflexivity|cbn; lia] | discriminate].
Qed.

(** Before any counted message the lot handler raises; after two counted
    messages it reports 2. *)
Lemma json_handlers_need_a_count_witness :
  Server.on Server.get_lot_json (Server.session_after [Server.ready_message] ∅)
  = Server.KeyError (Server.session_after [Server.ready_message] ∅)
  /\ exists e,
       Server.on Server.get_lot_json
         (Server.session_after
            [Server.get_city_name; Server.ready_message; Server.get_random_person] ∅)
       = Server.Emitted
           (Server.session_after
              [Server.get_city_name; Server.ready_message; Server.get_random_person] ∅) e
       /\ Server.count e = 2%Z.
Proof.
  split.
  - apply (json_handlers_need_a_count [Server.ready_message] Server.get_lot_json).
    + left. reflexivity.
    + reflexivity.
  - destruct (json_handlers_need_a_count
                [Server.get_city_name; Server.ready_message; Server.get_random_person]
                Server.get_lot_json (or_introl eq_refl)) as (_ & H & _).
    apply H. discriminate.
Defined.

(** * The addresses of residence.py *)

Lemma string_length_append (s t : string) :
  String.length (s +:+ t) = (String.length s + String.length t)%nat.
Proof.
  induction s as [|c s IH]; [reflexivity|].
  change (S (String.length (s +:+ t)) = S (String.length s + String.length t)).
  f_equal. exact IH.
Qed.

Lemma string_append_assoc (a b c : string) : (a +:+ b) +:+ c = a +:+ b +:+ c.
Proof.
  induction a as [|x a IH]; [reflexivity|].
  change (String x ((a +:+ b) +:+ c) = String x (a +:+ b +:+ c)).
  f_equal. exact IH.
Qed.

Lemma append_cancel_r (s1 s2 t : string) : s1 +:+ t = s2 +:+ t -> s1 = s2.
Proof.
  revert s2. induction s1 as [|c s1 IH]; intros [|c' s2] H.
  - reflexivity.
  - apply (f_equal String.length) in H.
    rewrite !string_length_append in H. cbn [String.length] in H. lia.
  - apply (f_equal String.length) in H.
    rewrite !string_length_append in H. cbn [String.length] in H. lia.
  - change (String c (s1 +:+ t) = String c' (s2 +:+ t)) in H.
    injection H as -> H. f_equal. apply IH, H.
Qed.

Lemma append_cancel_l (t s1 s2 : string) : t +:+ s1 = t +:+ s2 -> s1 = s2.
Proof.
  induction t as [|c t IH]; intros H; [exact H|].
  change (String c (t +:+ s1) = String c (t +:+ s2)) in H.
  injection H as H. apply IH, H.
Qed.

(** Two strings that agree after their first blank agree before it. *)
Lemma split_at_first_blank (s1 s2 t1 t2 : string) :
  Residence.no_blank s1 -> Residence.no_blank s2 ->
  s1 +:+ String " " t1 = s2 +:+ String " " t2 ->
  s1 = s2 /\ t1 = t2.
Proof.
  revert s2. induction s1 as [|c s1 IH]; intros [|c' s2] H1 H2 H.
  - change (String " " t1 = String " " t2) in H.
    injection H as H. split; [reflexivity | exact H].
  - change (String " " t1 = String c' (s2 +:+ String " " t2)) in H.
    injection H as Hc _. exfalso. apply (proj1 H2). symmetry. exact Hc.
  - change (String c (s1 +:+ String " " t1) = String " " t2) in H.
    injection H as Hc _. exfalso. apply (proj1 H1). exact Hc.
  - change (String c (s1 +:+ String " " t1) = String c' (s2 +:+ String " " t2)) in H.
    injection H as -> H.
    destruct (IH s2 (proj2 H1) (proj2 H2) H) as [-> ->]. split; reflexivity.
Qed.

Lemma pretty_N_char_no_blank (x : N) : pretty_N_char x <> " "%char.
Proof. unfold pretty_N_char. repeat case_match; discriminate. Qed.

Lemma pretty_N_go_no_blank (x : N) (s : string) :
  Residence.no_blank s -> Residence.no_blank (pretty_N_go x s).
Proof.
  revert s. induction (N.lt_wf_0 x) as [x _ IH]; intros s Hs.
  assert (x = 0 \/ 0 < x)%N as [-> | Hx] by lia.
  - rewrite pretty_N_go_0. exact Hs.
  - rewrite pretty_N_go_step by exact Hx. apply IH.
    + apply N.div_lt; [exact Hx | reflexivity].
    + split; [apply pretty_N_char_no_blank | exact Hs].
Qed.

Lemma pretty_N_no_blank (x : N) : Residence.no_blank (pretty x).
Proof.
  unfold pretty, pretty_N. destruct (decide (x = 0%N)).
  - simpl. split; [discriminate | exact I].
  - apply pretty_N_go_no_blank. exact I.
Qed.

Lemma pretty_Z_no_blank (x : Z) : Residence.no_blank (pretty x).
Proof.
  destruct x as [|p|p]; unfold pretty, pretty_Z.
  - simpl. split; [discriminate | exact I].
  - apply (pretty_N_no_blank (Npos p)).
  - simpl. split; [discriminate | apply (pretty_N_no_blank (Npos p))].
Qed.

(** X17. A dwelling's address is its lot's house number followed by the fixed
    street name: two dwellings have the same address exactly when their lots
    have the same house number, whatever streets the lots are on. *)
Theorem address_is_house_number (l1 l2 : Residence.Lot) :
  Residence.DwellingPlace_init_generate_address l1
  = Residence.DwellingPlace_init_generate_address l2
  <-> Residence.house_number l1 = Residence.house_number l2.
Proof.
  unfold Residence.DwellingPlace_init_generate_address. cbv zeta. split.
  - intros H. apply append_cancel_r in H. apply (inj pretty) in H. exact H.
  - intros ->. reflexivity.
Qed.

(** X18. An apartment's address is the address of a dwelling on its lot
    followed by the unit; two apartments have the same address exactly when
    house number and unit number agree, and no apartment has the address of a
    house. *)
Theorem apartment_address_is_unit (l1 l2 : Residence.Lot) (u1 u2 : Z) :
  Residence.Apartment_init_generate_address l1 u1
  = Residence.DwellingPlace_init_generate_address l1
    +:+ " (Unit #" +:+ pretty u1 +:+ ")"
  /\ (Residence.Apartment_init_generate_address l1 u1
      = Residence.Apartment_init_generate_address l2 u2
      <-> Residence.house_number l1 = Residence.house_number l2 /\ u1 = u2)
  /\ Residence.Apartment_init_generate_address l1 u1
     <> Residence.DwellingPlace_init_generate_address l2.
Proof.
  unfold Residence.Apartment_init_generate_address,
    Residence.DwellingPlace_init_generate_address. cbv zeta.
  set (n1 := Residence.house_number l1). set (n2 := Residence.house_number l2).
  split; [|split].
  - rewrite string_append_assoc. reflexivity.
  - split.
    + intros H.
      destruct (split_at_first_blank _ _ _ _ (pretty_Z_no_blank n1)
                  (pretty_Z_no_blank n2) H) as [Hn Hrest].
      apply (inj pretty) in Hn. split; [exact Hn|].
      apply (append_cancel_l "wtf lane (Unit #") in Hrest.
      apply append_cancel_r in Hrest. apply (inj pretty) in Hrest. exact Hrest.
    + intros [-> ->]. reflexivity.
  - intros H.
    destruct (split_at_first_blank _ _ _ _ (pretty_Z_no_blank n1)
                (pretty_Z_no_blank n2) H) as [_ Hrest].
    simpl in Hrest. discriminate.
Qed.
